(** * The component registry of atomic-webpack-plugin (src/index.js)

    A shallow embedding of the class [Atomic] and of the helper
    [equalsIgnoreOrder], with the parts of Node's [fs] and [path] modules
    that the class calls modelled as a small file-system world.

    Conventions of the embedding.
    - JavaScript strings are [string]s; the model covers strings whose code
      units lie in the 8-bit range, where the line terminators that the
      regular-expression atom [.] refuses are LF and CR.
    - Paths are POSIX paths.
    - An exception is an explicit outcome ([Throw]) of the operation. *)

From Stdlib Require Import String Ascii List Bool Arith Permutation.
From Stdlib Require Import DecimalString.
Import ListNotations.
Open Scope list_scope.
Open Scope string_scope.

(** ** Strings *)

Module Str.

(** [all p s]: every character of [s] satisfies [p]. *)
Fixpoint all (p : ascii -> bool) (s : string) : bool :=
  match s with
  | EmptyString => true
  | String c s' => p c && all p s'
  end.

(** [Array.prototype.join("")] on an array of strings. *)
Fixpoint join_empty (l : list string) : string :=
  match l with
  | [] => ""
  | x :: l' => x ++ join_empty l'
  end.

(** Decimal rendering of a number inside a template literal. *)
Definition of_nat (n : nat) : string := NilZero.string_of_uint (Nat.to_uint n).

End Str.

(** ** Regular expressions

    The three regular expressions of the source are sequences of quantified
    character classes, possibly with one capture group, anchored by [^] or
    [$].  The matcher below is the backtracking matcher of JavaScript
    restricted to that fragment: quantifiers are greedy, alternatives are
    tried in priority order and the first overall success wins. *)

Module Regex.

Inductive cls : Type :=
| Chr (c : ascii)        (* a literal character, such as [\/] or [x] *)
| Dot                    (* [.]: anything but a line terminator *)
| NotChr (c : ascii).    (* [[^c]] *)

Inductive quant : Type := One | Opt | Plus.

Record item : Type := Item { icls : cls; iquant : quant; igroup : bool }.

Record t : Type := Make { from_start : bool; items : list item; to_end : bool }.

Definition LF : ascii := "010"%char.
Definition CR : ascii := "013"%char.

Definition is_line_terminator (c : ascii) : bool :=
  Ascii.eqb c LF || Ascii.eqb c CR.

Definition cls_match (k : cls) (c : ascii) : bool :=
  match k with
  | Chr d => Ascii.eqb c d
  | Dot => negb (is_line_terminator c)
  | NotChr d => negb (Ascii.eqb c d)
  end.

(** A successful match: the text captured by group 1 and the text left
    after the match. *)
Definition hit : Type := (string * string)%type.

Definition capture (it : item) (c : ascii) (r : hit) : hit :=
  if igroup it then (String c (fst r), snd r) else r.

(** [c+] followed by the continuation [k]: longest repetition first. *)
Fixpoint match_plus (it : item) (k : string -> option hit) (s : string)
  : option hit :=
  match s with
  | EmptyString => None
  | String c s' =>
      if cls_match (icls it) c then
        match match_plus it k s' with
        | Some r => Some (capture it c r)
        | None => option_map (capture it c) (k s')
        end
      else None
  end.

Fixpoint match_items (eos : bool) (its : list item) (s : string) : option hit :=
  match its with
  | [] =>
      if eos then match s with EmptyString => Some ("", "") | _ => None end
      else Some ("", s)
  | it :: its' =>
      match iquant it with
      | One =>
          match s with
          | String c s' =>
              if cls_match (icls it) c
              then option_map (capture it c) (match_items eos its' s')
              else None
          | EmptyString => None
          end
      | Opt =>
          match s with
          | String c s' =>
              if cls_match (icls it) c then
                match match_items eos its' s' with
                | Some r => Some (capture it c r)
                | None => match_items eos its' s
                end
              else match_items eos its' s
          | EmptyString => match_items eos its' s
          end
      | Plus => match_plus it (match_items eos its') s
      end
  end.

(** The match of the whole expression found first, scanning start
    positions from the left: the text before the match, group 1 and the
    text after the match. *)
Fixpoint search (eos : bool) (its : list item) (s : string)
  : option (string * string * string) :=
  match match_items eos its s with
  | Some (g, rest) => Some ("", g, rest)
  | None =>
      match s with
      | EmptyString => None
      | String c s' =>
          match search eos its s' with
          | Some (pre, g, rest) => Some (String c pre, g, rest)
          | None => None
          end
      end
  end.

Definition exec (r : t) (s : string) : option (string * string * string) :=
  if from_start r then
    match match_items (to_end r) (items r) s with
    | Some (g, rest) => Some ("", g, rest)
    | None => None
    end
  else search (to_end r) (items r) s.

(** [RegExp.prototype.test] of an expression without the [g] and [y]
    flags. *)
Definition test (r : t) (s : string) : bool :=
  match exec r s with Some _ => true | None => false end.

(** [String.prototype.replace(r, template)] for an expression without the
    [g] flag; [template] maps group 1 to the replacement text. *)
Definition replace (r : t) (template : string -> string) (s : string) : string :=
  match exec r s with
  | Some (pre, g, rest) => pre ++ template g ++ rest
  | None => s
  end.

(** Builders. *)
Definition one (k : cls) : item := Item k One false.
Definition opt (k : cls) : item := Item k Opt false.
Definition plus (k : cls) : item := Item k Plus false.
Definition grp (it : item) : item := Item (icls it) (iquant it) true.

Fixpoint lit (s : string) : list item :=
  match s with
  | EmptyString => []
  | String c s' => one (Chr c) :: lit s'
  end.

End Regex.

(** ** The regular expressions of the source *)

Definition slash : ascii := "/"%char.

(** [defaultOptions.regularExpression]: [/\.?\/.+\/index\.tsx$/]. *)
Definition default_regularExpression : Regex.t :=
  Regex.Make false
    ([Regex.opt (Regex.Chr "."%char); Regex.one (Regex.Chr slash);
      Regex.plus Regex.Dot] ++ Regex.lit "/index.tsx")%list
    true.

(** [/^.+\.?\/([^/]+)\/index\.tsx/] of [cleanKeys]. *)
Definition componentName_re : Regex.t :=
  Regex.Make true
    ([Regex.plus Regex.Dot; Regex.opt (Regex.Chr "."%char);
      Regex.one (Regex.Chr slash);
      Regex.grp (Regex.plus (Regex.NotChr slash))] ++ Regex.lit "/index.tsx")%list
    false.

(** [/^.+\.?\/([^/]+\/[^/]+)\/index\.tsx/] of [cleanKeys]. *)
Definition from_re : Regex.t :=
  Regex.Make true
    ([Regex.plus Regex.Dot; Regex.opt (Regex.Chr "."%char);
      Regex.one (Regex.Chr slash);
      Regex.grp (Regex.plus (Regex.NotChr slash));
      Regex.grp (Regex.one (Regex.Chr slash));
      Regex.grp (Regex.plus (Regex.NotChr slash))] ++ Regex.lit "/index.tsx")%list
    false.

(** The type [CleanKeys] of the source. *)
Record CleanKeys : Type := MkCleanKeys {
  key : string;
  componentName : string;
  from : string
}.

Definition cleanKey (k : string) : CleanKeys :=
  {| key := k;
     componentName := Regex.replace componentName_re (fun g => g) k;
     from := Regex.replace from_re (fun g => "./" ++ g) k |}.

(** [Atomic.cleanKeys]. *)
Definition cleanKeys (keys : list string) : list CleanKeys := map cleanKey keys.

(** ** [equalsIgnoreOrder] *)

(** [a.filter(e => e === v).length]. *)
Definition count_of (v : string) (a : list string) : nat :=
  List.length (filter (fun e => String.eqb e v) a).

(** [new Set(l)]: the distinct values of [l] in order of first insertion. *)
Definition Set_add (seen : list string) (v : string) : list string :=
  if existsb (String.eqb v) seen then seen else (seen ++ [v])%list.

Definition Set_of (l : list string) : list string := fold_left Set_add l [].

(** The [for ... of] loop of [equalsIgnoreOrder], leaving at the first
    value whose counts differ. *)
Fixpoint counts_agree (a b : list string) (uniqueValues : list string) : bool :=
  match uniqueValues with
  | [] => true
  | v :: rest =>
      let aCount := count_of v a in
      let bCount := count_of v b in
      if negb (aCount =? bCount)%nat then false else counts_agree a b rest
  end.

Definition equalsIgnoreOrder (a b : list string) : bool :=
  if negb (List.length a =? List.length b)%nat then false
  else
    let uniqueValues := Set_of (a ++ b)%list in
    counts_agree a b uniqueValues.

(** ** Node's [path.resolve] (POSIX)

    Not part of the repository: modelled after Node's documented algorithm.
    Arguments are taken from the right until an absolute path is built, the
    working directory is used if none is absolute, and the result is
    normalised: empty and [.] segments are dropped, [..] removes the segment
    before it. *)

Module Path.

Fixpoint segments (s : string) : list string :=
  match s with
  | EmptyString => [""]
  | String c s' =>
      if Ascii.eqb c "/"%char then "" :: segments s'
      else match segments s' with
           | h :: t => String c h :: t
           | [] => [String c ""]
           end
  end.

(** One step of the normalisation; [stack] holds the segments kept so
    far, innermost first. *)
Definition push (allowAboveRoot : bool) (stack : list string) (seg : string)
  : list string :=
  if String.eqb seg "" || String.eqb seg "." then stack
  else if String.eqb seg ".." then
    match stack with
    | top :: below =>
        if String.eqb top ".." then seg :: stack else below
    | [] => if allowAboveRoot then [seg] else []
    end
  else seg :: stack.

Definition normalize (allowAboveRoot : bool) (p : string) : string :=
  String.concat "/" (rev (fold_left (push allowAboveRoot) (segments p) [])).

Definition is_absolute (p : string) : bool :=
  match p with
  | String c _ => Ascii.eqb c "/"%char
  | EmptyString => false
  end.

(** The loop over the arguments, from the last one to the first. *)
Fixpoint gather (args_from_right : list string) (resolvedPath : string)
  : string * bool :=
  match args_from_right with
  | [] => (resolvedPath, false)
  | p :: more =>
      if String.eqb p "" then gather more resolvedPath
      else
        let resolvedPath := p ++ "/" ++ resolvedPath in
        if is_absolute p then (resolvedPath, true) else gather more resolvedPath
  end.

Definition resolve (cwd : string) (args : list string) : string :=
  let '(resolvedPath, resolvedAbsolute) :=
    match gather (rev args) "" with
    | (rp, true) => (rp, true)
    | (rp, false) => (cwd ++ "/" ++ rp, is_absolute cwd)
    end in
  let normalized := normalize (negb resolvedAbsolute) resolvedPath in
  if resolvedAbsolute then "/" ++ normalized
  else if String.eqb normalized "" then "." else normalized.

End Path.

(** ** The file system

    The disk is a tree rooted at [/].  The entry [name] of the directory at
    path [dir] is the file at [path.resolve(dir, name)]. *)

#[warnings="-register-all"]
Inductive node : Type :=
| File (writable : bool) (content : string)
| Dir (entries : list (string * node))
| Unreadable        (* a directory whose listing is denied *)
| Dangling.         (* a link to nothing: the name is listed, the file is absent *)

Inductive errno : Type := ENOENT | ENOTDIR | EACCES | EISDIR.

(** A Node error object: its code and the path it is about. *)
Definition error : Type := (errno * string)%type.

Definition errno_text (c : errno) : string :=
  match c with
  | ENOENT => "ENOENT"
  | ENOTDIR => "ENOTDIR"
  | EACCES => "EACCES"
  | EISDIR => "EISDIR"
  end.

Definition error_text (e : error) : string := errno_text (fst e) ++ ": " ++ snd e.

Record World : Type := MkWorld { cwd : string; root : node }.

Section Tree.

Variable wd : string.

(** The node at path [p], looking below the node [n] that sits at [cur]. *)
Fixpoint find_node (p : string) (cur : string) (n : node) : option node :=
  if String.eqb cur p then Some n
  else
    match n with
    | Dir es =>
        (fix first (es : list (string * node)) : option node :=
           match es with
           | [] => None
           | (name, child) :: es' =>
               match find_node p (Path.resolve wd [cur; name]) child with
               | Some r => Some r
               | None => first es'
               end
           end) es
    | _ => None
    end.

(** [f] applied to the nodes at path [p]. *)
Fixpoint update_node (f : node -> node) (p : string) (cur : string) (n : node)
  : node :=
  if String.eqb cur p then f n
  else
    match n with
    | Dir es =>
        Dir ((fix each (es : list (string * node)) : list (string * node) :=
                match es with
                | [] => []
                | (name, child) :: es' =>
                    (name, update_node f p (Path.resolve wd [cur; name]) child)
                      :: each es'
                end) es)
    | _ => n
    end.

End Tree.

Definition lookup (w : World) (p : string) : option node :=
  find_node (cwd w) p "/" (root w).

(** [fs.accessSync(p, fs.constants.F_OK)]: [None] when the file is there,
    the error thrown otherwise. *)
Definition access_error (w : World) (p : string) : option error :=
  match lookup w p with
  | Some Dangling | None => Some (ENOENT, p)
  | Some _ => None
  end.

Definition exists_on_disk (w : World) (p : string) : bool :=
  match access_error w p with None => true | Some _ => false end.

Definition set_content (content : string) (n : node) : node :=
  match n with
  | File writable _ => File writable content
  | _ => n
  end.

(** [fs.writeFileSync(p, content)] on a path that exists, which is how [run]
    calls it; a failed write leaves the disk as it was. *)
Definition write_file (w : World) (p : string) (content : string)
  : World + error :=
  match lookup w p with
  | Some (File true _) =>
      inl (MkWorld (cwd w) (update_node (cwd w) (set_content content) p "/" (root w)))
  | Some (File false _) => inr (EACCES, p)
  | Some (Dir _) | Some Unreadable => inr (EISDIR, p)
  | Some Dangling | None => inr (ENOENT, p)
  end.

(** The content of the file at [p], if [p] is a file. *)
Definition read_file (w : World) (p : string) : option string :=
  match lookup w p with
  | Some (File _ content) => Some content
  | _ => None
  end.

(** ** The registry *)

Inductive level : Type := info | error_level | trace | debug.

(** One call of a logger method with its arguments. *)
Definition log_entry : Type := (level * list string)%type.

(** The fields of an [Atomic] instance.  [files] is the object used as a set
    of paths: its keys in insertion order (every key is an absolute path, so
    none is an array index and [Object.keys] keeps insertion order).
    [regularExpression] is the [test] method of an expression without the
    [g] and [y] flags.  [logged] records the calls made to [this.logger]. *)
Record Atomic : Type := MkAtomic {
  keys : list string;
  files : list string;
  context : string;
  regularExpression : string -> bool;
  base : string;
  header : string;
  output : string;
  scanSubDirectories : bool;
  logged : list log_entry
}.

Definition with_keys (ks : list string) (a : Atomic) : Atomic :=
  MkAtomic ks (files a) (context a) (regularExpression a) (base a) (header a)
    (output a) (scanSubDirectories a) (logged a).

Definition with_files (fs : list string) (a : Atomic) : Atomic :=
  MkAtomic (keys a) fs (context a) (regularExpression a) (base a) (header a)
    (output a) (scanSubDirectories a) (logged a).

Definition with_logged (l : list log_entry) (a : Atomic) : Atomic :=
  MkAtomic (keys a) (files a) (context a) (regularExpression a) (base a)
    (header a) (output a) (scanSubDirectories a) l.

(** [new Atomic(options)] followed by [setOptions({logger, context})], as
    the plugin does before the first [run]. *)
Definition new_Atomic (context base output header : string)
    (regularExpression : string -> bool) : Atomic :=
  MkAtomic [] [] context regularExpression base header output true [].

(** [this.files[fullPath] = true]. *)
Definition files_set (fs : list string) (fullPath : string) : list string :=
  if existsb (String.eqb fullPath) fs then fs else (fs ++ [fullPath])%list.

(** *** Computations

    A method runs on the instance and the disk; it returns or throws, and
    in both cases leaves an instance and a disk behind. *)

Record Machine : Type := MkMachine { self : Atomic; disk : World }.

Inductive outcome (A : Type) : Type :=
| Return (a : A)
| Throw (e : error).
Arguments Return {A} a.
Arguments Throw {A} e.

Definition M (A : Type) : Type := Machine -> outcome A * Machine.

Definition ret {A} (a : A) : M A := fun m => (Return a, m).

Definition throw {A} (e : error) : M A := fun m => (Throw e, m).

Definition bind {A B} (c : M A) (k : A -> M B) : M B :=
  fun m =>
    match c m with
    | (Return a, m') => k a m'
    | (Throw e, m') => (Throw e, m')
    end.

(** [try { c } catch (err) { handler err }]. *)
Definition try_catch {A} (c : M A) (handler : error -> M A) : M A :=
  fun m =>
    match c m with
    | (Return a, m') => (Return a, m')
    | (Throw e, m') => handler e m'
    end.

Notation "x <- c ;; k" := (bind c (fun x => k))
  (at level 61, c at next level, right associativity).
Notation "c ;; k" := (bind c (fun _ => k))
  (at level 61, right associativity).

Definition get_self : M Atomic := fun m => (Return (self m), m).

Definition modify_self (f : Atomic -> Atomic) : M unit :=
  fun m => (Return tt, MkMachine (f (self m)) (disk m)).

Definition get_disk : M World := fun m => (Return (disk m), m).

Definition logger (l : level) (args : list string) : M unit :=
  modify_self (fun a => with_logged (logged a ++ [(l, args)])%list a).

Definition accessSync (p : string) : M unit :=
  w <- get_disk ;;
  match access_error w p with
  | None => ret tt
  | Some e => throw e
  end.

Definition writeFileSync (p content : string) : M unit :=
  fun m =>
    match write_file (disk m) p content with
    | inl w' => (Return tt, MkMachine (self m) w')
    | inr e => (Throw e, m)
    end.

Definition path_resolve (args : list string) : M string :=
  w <- get_disk ;; ret (Path.resolve (cwd w) args).

(** *** [readDirectory]

    [fs.readdirSync(directory)] lists the entries of the node at
    [directory]; [fs.statSync(fullPath)] looks at the entry itself.  An
    exception leaves the paths recorded so far in [this.files]. *)
Section Scan.

Variable scanSubDirectories_ : bool.
Variable regularExpression_ : string -> bool.

Fixpoint readDirectory_at (directory : string) (n : node) : M unit :=
  match n with
  | Dir es =>
      (fix forEach (es : list (string * node)) : M unit :=
         match es with
         | [] => ret tt
         | (file, child) :: es' =>
             fullPath <- path_resolve [directory; file] ;;
             match child with
             | Dangling => throw (ENOENT, fullPath)
             | Dir _ | Unreadable =>
                 (if scanSubDirectories_ then readDirectory_at fullPath child
                  else ret tt) ;;
                 forEach es'
             | File _ _ =>
                 (if negb (regularExpression_ fullPath) then ret tt
                  else modify_self (fun a => with_files (files_set (files a) fullPath) a)) ;;
                 forEach es'
             end
         end) es
  | File _ _ => throw (ENOTDIR, directory)
  | Unreadable => throw (EACCES, directory)
  | Dangling => throw (ENOENT, directory)
  end.

Definition readDirectory (directory : string) : M unit :=
  w <- get_disk ;;
  match lookup w directory with
  | Some n => readDirectory_at directory n
  | None => throw (ENOENT, directory)
  end.

End Scan.

(** *** [getComponents] *)
Definition getComponents (directory : string) (scanSubDirectories_ : bool)
    (regularExpression_ : string -> bool) : M (list string) :=
  logger info ["Get Components..."; directory] ;;
  modify_self (with_files []) ;;
  readDirectory scanSubDirectories_ regularExpression_ directory ;;
  modify_self (fun a => with_keys (files a) a) ;;
  a <- get_self ;;
  ret (keys a).

(** *** [check]

    The value returned is the pair of arguments handed to the callback. *)
Fixpoint check_keys (ks : list CleanKeys) (changes : bool) : M bool :=
  match ks with
  | [] => ret changes
  | k :: rest =>
      changes' <-
        try_catch
          (accessSync (key k) ;;
           logger debug ["\u2713"; from k] ;;
           ret changes)
          (fun err =>
             logger info ["Detected component change"; from k] ;;
             ret true) ;;
      check_keys rest changes'
  end.

Definition check : M (bool * list string) :=
  logger info ["Running Check"] ;;
  a <- get_self ;;
  let ks := cleanKeys (keys a) in
  logger info ["...Checking keys"] ;;
  changes <- check_keys ks false ;;
  changes <-
    (if negb changes then
       a <- get_self ;;
       resolvedBase <- path_resolve [context a; base a] ;;
       logger info ["...Checking files"] ;;
       modify_self (with_files []) ;;
       readDirectory (scanSubDirectories a) (regularExpression a) resolvedBase ;;
       a <- get_self ;;
       let fileKeys := files a in
       let equal := equalsIgnoreOrder fileKeys (keys a) in
       if negb equal then ret true else ret changes
     else ret changes) ;;
  (if changes then logger info ["Changes detected..."]
   else logger info ["No changes..."]) ;;
  a <- get_self ;;
  ret (changes, keys a).

(** *** [run]

    [None] is the empty object [{}]; [Some ks] is [{ keys: ks, instance }],
    returned after the callback has been called with [ks]. *)
Definition export_line (k : CleanKeys) : string :=
  "export { default as " ++ componentName k ++ " } from '" ++ from k ++ "'" ++
  String "010"%char "".

(** A [try] block whose [catch] clause ends in [return {}]: [true] says
    that the method has to return the empty object now. *)
Definition or_return_empty (block : M unit) (handler : error -> M unit) : M bool :=
  try_catch (block ;; ret false) (fun err => handler err ;; ret true).

Definition run : M (option (list string)) :=
  logger info ["Run..."] ;;
  a <- get_self ;;
  resolvedBase <- path_resolve [context a; base a] ;;
  resolvedOutput <- path_resolve [context a; base a; output a] ;;
  left <- or_return_empty
    (accessSync resolvedBase)
    (fun err =>
       logger error_level ["Unable to find " ++ resolvedBase
                             ++ " check your settings base"] ;;
       logger trace [error_text err]) ;;
  if left : bool then ret None else
  left <- or_return_empty
    (accessSync resolvedOutput)
    (fun err =>
       logger error_level ["Unable to find " ++ resolvedOutput
                             ++ " check your [output] and [base] options"] ;;
       logger trace [error_text err]) ;;
  if left : bool then ret None else
  ks <- getComponents resolvedBase (scanSubDirectories a) (regularExpression a) ;;
  let cleaned := cleanKeys ks in
  let contentArray := map export_line cleaned in
  let content := header a ++ Str.join_empty contentArray in
  left <- or_return_empty
    (writeFileSync resolvedOutput content ;;
     logger info ["Generated @atomic! " ++ Str.of_nat (List.length ks)
                    ++ " files add to " ++ resolvedOutput])
    (fun err =>
       logger error_level ["Error writing 'index.ts'"; error_text err] ;;
       logger trace [error_text err]) ;;
  if left : bool then ret None else
  a <- get_self ;;
  ret (Some (keys a)).

(** ** A project on disk *)

Definition component (name : string) : string * node :=
  (name, Dir [("index.tsx", File true "export default 1"); ("style.css", File true "")]).

Definition project : World :=
  MkWorld "/"
    (Dir [("proj",
           Dir [("src",
                 Dir [("components",
                       Dir [component "Button";
                            component "Card";
                            ("index.ts", File true "")])])])]).

Definition registry : Atomic :=
  new_Atomic "/proj" "./src/components" "index.ts"
    ("// generated" ++ String "010"%char "")
    (Regex.test default_regularExpression).

(** A pattern for projects written in JavaScript: [/\/index\.jsx$/]. *)
Definition jsx_regularExpression : Regex.t :=
  Regex.Make false (Regex.lit "/index.jsx") true.

(** The same project with the base directory missing, with one component
    removed, with one component added, and with a read-only barrel file. *)
Definition components_of (entries : list (string * node)) : World :=
  MkWorld "/" (Dir [("proj", Dir [("src", Dir [("components", Dir entries)])])]).

Definition project_without_base : World :=
  MkWorld "/" (Dir [("proj", Dir [("src", Dir [])])]).

Definition project_without_Button : World :=
  components_of [component "Card"; ("index.ts", File true "")].

Definition project_with_Modal : World :=
  components_of [component "Button"; component "Card"; component "Modal";
                 ("index.ts", File true "")].

Definition project_reordered : World :=
  components_of [("index.ts", File true ""); component "Card"; component "Button"].

Definition project_read_only : World :=
  components_of [component "Button"; component "Card"; ("index.ts", File false "")].

(** A component directory that cannot be listed. *)
Definition project_locked : World :=
  components_of [component "Button"; ("Secret", Unreadable);
                 ("index.ts", File true "")].

(** The registry after a first [run] on [project]. *)
Definition registry_after_run : Atomic := self (snd (run (MkMachine registry project))).

(** ** Notions used to state the properties *)

(** The directory scan as a function of the paths recorded so far: the
    paths recorded afterwards and the error thrown, if any. *)
Section ScanFunction.

Variable wd : string.
Variable recursive : bool.
Variable pattern : string -> bool.

Fixpoint scan_at (directory : string) (n : node) (fs : list string)
  : list string * option error :=
  match n with
  | Dir es =>
      (fix forEach (es : list (string * node)) (fs : list string)
         : list string * option error :=
         match es with
         | [] => (fs, None)
         | (file, child) :: es' =>
             let fullPath := Path.resolve wd [directory; file] in
             match child with
             | Dangling => (fs, Some (ENOENT, fullPath))
             | Dir _ | Unreadable =>
                 if recursive then
                   match scan_at fullPath child fs with
                   | (fs', None) => forEach es' fs'
                   | (fs', Some e) => (fs', Some e)
                   end
                 else forEach es' fs
             | File _ _ =>
                 forEach es'
                   (if negb (pattern fullPath) then fs else files_set fs fullPath)
             end
         end) es fs
  | File _ _ => (fs, Some (ENOTDIR, directory))
  | Unreadable => (fs, Some (EACCES, directory))
  | Dangling => (fs, Some (ENOENT, directory))
  end.

(** [file_below dir n p]: [p] is the path of a file found in the directory
    [n] at [dir], at its top level or, when [recursive], at any depth. *)
Inductive file_below : string -> node -> string -> Prop :=
| file_here dir es name writable content :
    In (name, File writable content) es ->
    file_below dir (Dir es) (Path.resolve wd [dir; name])
| file_deeper dir es name child p :
    recursive = true ->
    In (name, child) es ->
    file_below (Path.resolve wd [dir; name]) child p ->
    file_below dir (Dir es) p.

(** Every directory that the scan enters can be listed and every entry it
    meets can be examined. *)
Fixpoint readable (n : node) : bool :=
  match n with
  | Dir es =>
      (fix each (es : list (string * node)) : bool :=
         match es with
         | [] => true
         | (_, child) :: es' =>
             match child with
             | Dangling => false
             | File _ _ => true
             | Dir _ | Unreadable => if recursive then readable child else true
             end && each es'
         end) es
  | _ => false
  end.

End ScanFunction.

(** The paths of the base directory and of the barrel file. *)
Definition resolvedBase (a : Atomic) (w : World) : string :=
  Path.resolve (cwd w) [context a; base a].

Definition resolvedOutput (a : Atomic) (w : World) : string :=
  Path.resolve (cwd w) [context a; base a; output a].

(** A fresh scan of the base directory with the settings of the registry:
    the paths it yields, or the error it throws. *)
Definition rescan (a : Atomic) (w : World) : outcome (list string) :=
  match readDirectory (scanSubDirectories a) (regularExpression a)
          (resolvedBase a w) (MkMachine (with_files [] a) w) with
  | (Return _, m) => Return (files (self m))
  | (Throw e, _) => Throw e
  end.

(** The text that [run] writes for the paths [ks]. *)
Definition barrel (header_ : string) (ks : list string) : string :=
  header_ ++ Str.join_empty (map export_line (cleanKeys ks)).

(** Two disks with the same names, kinds and permissions everywhere: they
    differ in the contents of files only. *)
Fixpoint same_shape (n n' : node) : Prop :=
  match n, n' with
  | File w _, File w' _ => w = w'
  | Dir es, Dir es' =>
      (fix each (es es' : list (string * node)) : Prop :=
         match es, es' with
         | [], [] => True
         | (name, child) :: r, (name', child') :: r' =>
             name = name' /\ same_shape child child' /\ each r r'
         | _, _ => False
         end) es es'
  | Unreadable, Unreadable => True
  | Dangling, Dangling => True
  | _, _ => False
  end.

(** The derivation of section 4.2 of the specification, in its words: strip
    the file name, then take the last segment, respectively the last two
    segments. *)
Definition spec_componentName (path : string) : string :=
  last (removelast (Path.segments path)) "".

Definition spec_importSpecifier (path : string) : string :=
  let dirs := removelast (Path.segments path) in
  "./" ++ last (removelast dirs) "" ++ "/" ++ last dirs "".

Definition no_slash (s : string) : bool :=
  Str.all (fun c => negb (Ascii.eqb c slash)) s.

Definition one_line (s : string) : bool :=
  Str.all (fun c => negb (Regex.is_line_terminator c)) s.

(** ** Notions used in the proofs *)

(** The outcome of a computation that returns nothing. *)
Definition thrown (e : option error) : outcome unit :=
  match e with None => Return tt | Some e => Throw e end.

(** The scan started at the path [directory] of the disk [w]. *)
Definition scan_from (w : World) (r : bool) (pat : string -> bool)
    (directory : string) (fs : list string) : list string * option error :=
  match lookup w directory with
  | Some n => scan_at (cwd w) r pat directory n fs
  | None => (fs, Some (ENOENT, directory))
  end.

(** Some stored key is missing on disk. *)
Definition some_missing (w : World) (ks : list string) : bool :=
  existsb (fun k => negb (exists_on_disk w k)) ks.

(** The search through the entries of a directory. *)
Definition find_first (wd p cur : string) (es : list (string * node))
  : option node :=
  fold_right
    (fun e later =>
       match find_node wd p (Path.resolve wd [cur; fst e]) (snd e) with
       | Some r => Some r
       | None => later
       end) None es.

Definition update_entries (wd : string) (f : node -> node) (p cur : string)
    (es : list (string * node)) : list (string * node) :=
  map (fun e => (fst e, update_node wd f p (Path.resolve wd [cur; fst e]) (snd e))) es.

Definition same_entries (es es' : list (string * node)) : Prop :=
  Forall2 (fun e e' => fst e = fst e' /\ same_shape (snd e) (snd e')) es es'.

Definition same_found (o o' : option node) : Prop :=
  match o, o' with
  | Some m, Some m' => same_shape m m'
  | None, None => True
  | _, _ => False
  end.

Definition same_disk (w w' : World) : Prop :=
  cwd w = cwd w' /\ same_shape (root w) (root w').

(** Two registries with the same settings: they may differ in the stored
    keys, in [files] and in what has been logged. *)
Definition same_settings (a a' : Atomic) : Prop :=
  context a = context a' /\ base a = base a' /\ output a = output a' /\
  header a = header a' /\ regularExpression a = regularExpression a' /\
  scanSubDirectories a = scanSubDirectories a'.

Definition same_written (x x' : World + error) : Prop :=
  match x, x' with
  | inl _, inl _ => True
  | inr e, inr e' => e = e'
  | _, _ => False
  end.

(** Notions about the matcher. *)
Module MatcherNotions.
Import Regex.

(** Every proper suffix of [w] is refused by [k]. *)
Fixpoint tails_fail (k : string -> option hit) (w : string) : Prop :=
  match w with
  | EmptyString => True
  | String _ w' => k w' = None /\ tails_fail k w'
  end.

(** [c] put in front of the captured text. *)
Definition in_front (c : string) (r : hit) : hit := (c ++ fst r, snd r).

(** The continuation [\.?\/ its]. *)
Definition after_dot_slash (its : list item) : string -> option hit :=
  match_items false (opt (Chr "."%char) :: one (Chr slash) :: its).

(** What follows [\.?\/] in the two expressions of [cleanKeys]. *)
Definition name_items : list item :=
  grp (plus (NotChr slash)) :: lit "/index.tsx".

Definition from_items : list item :=
  grp (plus (NotChr slash)) :: grp (one (Chr slash))
    :: grp (plus (NotChr slash)) :: lit "/index.tsx".

End MatcherNotions.

(** ** Induction on the tree of the disk *)

Section NodeInduction.

Variable P : node -> Prop.
Hypothesis P_File : forall writable content, P (File writable content).
Hypothesis P_Dir : forall es, Forall (fun e => P (snd e)) es -> P (Dir es).
Hypothesis P_Unreadable : P Unreadable.
Hypothesis P_Dangling : P Dangling.

Fixpoint node_induction (n : node) : P n :=
  match n with
  | File writable content => P_File writable content
  | Dir es =>
      P_Dir es
        ((fix each (es : list (string * node)) : Forall (fun e => P (snd e)) es :=
            match es with
            | [] => Forall_nil _
            | e :: es' => Forall_cons e (node_induction (snd e)) (each es')
            end) es)
  | Unreadable => P_Unreadable
  | Dangling => P_Dangling
  end.

End NodeInduction.

(** ** Options, construction and the plugin

    An options object is a record of optional properties: [None] is a
    property that the object does not have.  A logger is known by its
    name. *)

Inductive logger_ref : Type :=
| console_logger                       (* the methods of [console] *)
| infrastructure_logger (name : string) (* [compiler.getInfrastructureLogger(name)] *)
| given_logger (name : string).        (* a logger handed in by the caller *)

(** [Partial<AtomicOptions>]. *)
Record AtomicOptions : Type := MkOptions {
  o_base : option string;
  o_output : option string;
  o_header : option string;
  o_regularExpression : option (string -> bool);
  o_logger : option logger_ref;
  o_context : option string
}.

Definition no_options : AtomicOptions :=
  MkOptions None None None None None None.

Definition or_else {A : Type} (x : option A) (fallback : option A) : option A :=
  match x with
  | Some v => Some v
  | None => fallback
  end.

(** [Object.assign(target, source)]: the properties of [source] win. *)
Definition Object_assign (target source : AtomicOptions) : AtomicOptions :=
  MkOptions
    (or_else (o_base source) (o_base target))
    (or_else (o_output source) (o_output target))
    (or_else (o_header source) (o_header target))
    (or_else (o_regularExpression source) (o_regularExpression target))
    (or_else (o_logger source) (o_logger target))
    (or_else (o_context source) (o_context target)).

Definition default_header : string :=
  "// @generated" ++ String "010"%char
    ("// This file is automatically generated and should not be edited."
       ++ String "010"%char (String "010"%char "")).

(** [defaultOptions]. *)
Definition defaultOptions : AtomicOptions :=
  MkOptions (Some "./src/components") (Some "index.ts") (Some default_header)
    (Some (Regex.test default_regularExpression)) None None.

(** The fields of an instance while it is being set up: a field read from
    a settings object that lacks the property is [undefined], here
    [None]. *)
Record Instance : Type := MkInstance {
  i_keys : list string;
  i_files : list string;
  i_context : option string;
  i_regularExpression : option (string -> bool);
  i_base : option string;
  i_header : option string;
  i_output : option string;
  i_settings : AtomicOptions;
  i_scanSubDirectories : option bool;
  i_logger : option logger_ref
}.

(** [setOptions]. *)
Definition setOptions (options : AtomicOptions) (i : Instance) : Instance :=
  let settings := Object_assign (Object_assign no_options (i_settings i)) options in
  MkInstance (i_keys i) (i_files i)
    (o_context settings)
    (o_regularExpression settings)
    (o_base settings)
    (o_header settings)
    (o_output settings)
    settings
    (i_scanSubDirectories i)
    (o_logger settings).

(** [new Atomic(options)]; [dirname] is [__dirname]. *)
Definition Atomic_constructor (dirname : string) (options : AtomicOptions)
  : Instance :=
  let this :=
    MkInstance [] [] (Some dirname)
      (o_regularExpression defaultOptions)
      (o_base defaultOptions)
      (o_header defaultOptions)
      (o_output defaultOptions)
      defaultOptions None None in
  let this := setOptions options this in
  MkInstance (i_keys this) (i_files this) (i_context this)
    (i_regularExpression this) (i_base this) (i_header this) (i_output this)
    (i_settings this) (Some true) (Some console_logger).

(** [new AtomicWebpackPlugin(options)], for an [options] that passes
    [validate]: the [atomic] field of the plugin. *)
Definition AtomicWebpackPlugin_constructor (dirname : string)
    (options : option AtomicOptions) : Instance :=
  Atomic_constructor dirname
    (Object_assign (Object_assign no_options defaultOptions)
       (match options with Some o => o | None => no_options end)).

(** The options that the hook on [compiler.hooks.environment] hands to
    [setOptions]: the logger [compiler.getInfrastructureLogger("atomic")]
    and [compiler.context]. *)
Definition compiler_options (compiler_context : string) : AtomicOptions :=
  MkOptions None None None None (Some (infrastructure_logger "atomic"))
    (Some compiler_context).

Definition value_or {A : Type} (fallback : A) (x : option A) : A :=
  match x with
  | Some v => v
  | None => fallback
  end.

(** The instance as the methods [run] and [check] use it, when every field
    they read is defined; [l] is what its logger has recorded. *)
Definition ready (i : Instance) (l : list log_entry) : option Atomic :=
  match i_context i, i_regularExpression i, i_base i, i_header i, i_output i,
        i_scanSubDirectories i, i_logger i with
  | Some c, Some re, Some b, Some h, Some o, Some sub, Some _ =>
      Some (MkAtomic (i_keys i) (i_files i) c re b h o sub l)
  | _, _, _, _, _, _, _ => None
  end.

(** ** The hooks of the plugin

    [run] and [check] with their callbacks: [run] calls its callback with
    the keys right before it returns them, [check] calls its callback
    last. *)

Definition run_with (callback : list string -> M unit) : M (option (list string)) :=
  r <- run ;;
  match r with
  | Some ks => callback ks ;; ret r
  | None => ret r
  end.

Definition check_with {A : Type} (callback : bool -> list string -> M A) : M A :=
  r <- check ;; callback (fst r) (snd r).

Definition with_context (c : string) (a : Atomic) : Atomic :=
  MkAtomic (keys a) (files a) c (regularExpression a) (base a) (header a)
    (output a) (scanSubDirectories a) (logged a).

(** The hook on [compiler.hooks.environment]; [compiler_context] is
    [compiler.context]. *)
Definition environment_hook (compiler_context : string) : M unit :=
  modify_self (with_context compiler_context) ;;
  logger info ["Atomic start"] ;;
  run_with (fun _ => logger info ["Done"]) ;;
  ret tt.

(** The hook on [compiler.hooks.run] and on [compiler.hooks.watchRun]; it
    returns when it has called the [callback] of the compiler.  The
    [logger] of the callbacks is the one that the environment hook has
    installed in the instance. *)
Definition build_hook : M unit :=
  check_with (fun changes _ =>
    (if changes : bool
     then run_with (fun _ => logger info ["Done"]) ;; ret tt
     else ret tt) ;;
    ret tt).

(** ** The order of a scan *)

(** The paths of the files that a scan of the directory [n] at [directory]
    meets, in the order in which it meets them: the entries in the order
    of the listing, a sub-directory being scanned, if at all, when its
    entry is met. *)
Fixpoint files_in_order (wd : string) (recursive : bool) (directory : string)
    (n : node) : list string :=
  match n with
  | Dir es =>
      (fix each (es : list (string * node)) : list string :=
         match es with
         | [] => []
         | (name, child) :: es' =>
             let fullPath := Path.resolve wd [directory; name] in
             (match child with
              | File _ _ => [fullPath]
              | Dir _ | Unreadable =>
                  if recursive then files_in_order wd recursive fullPath child
                  else []
              | Dangling => []
              end ++ each es')%list
         end) es
  | _ => []
  end.

(** [s] starts with the text [l]; the text [l] occurs in [s]. *)
Fixpoint starts_with (l s : string) : bool :=
  match l, s with
  | EmptyString, _ => true
  | String c l', String d s' => Ascii.eqb d c && starts_with l' s'
  | String _ _, EmptyString => false
  end.

Fixpoint occurs (l s : string) : bool :=
  starts_with l s ||
  match s with
  | EmptyString => false
  | String _ s' => occurs l s'
  end.

(** ** Paths that name one file *)

Fixpoint no_duplicates (l : list string) : bool :=
  match l with
  | [] => true
  | x :: rest => negb (existsb (String.eqb x) rest) && no_duplicates rest
  end.

(** The paths of all the nodes of the tree [n] at [cur]. *)
Fixpoint all_paths (wd : string) (cur : string) (n : node) : list string :=
  cur ::
  match n with
  | Dir es =>
      (fix each (es : list (string * node)) : list string :=
         match es with
         | [] => []
         | (name, child) :: es' =>
             (all_paths wd (Path.resolve wd [cur; name]) child ++ each es')%list
         end) es
  | _ => []
  end.

(** The paths of the nodes below the entries [es] of the directory at
    [cur]. *)
Definition entries_paths (wd cur : string) (es : list (string * node))
  : list string :=
  flat_map (fun e => all_paths wd (Path.resolve wd [cur; fst e]) (snd e)) es.

(** No two nodes of the disk have the same path. *)
Definition unique_paths (w : World) : bool :=
  no_duplicates (all_paths (cwd w) "/" (root w)).

(** [node_at wd cur n p m]: [m] is a node at path [p] in the tree [n] at
    [cur]. *)
Inductive node_at (wd : string) : string -> node -> string -> node -> Prop :=
| node_here cur n : node_at wd cur n cur n
| node_below cur es name child p m :
    In (name, child) es ->
    node_at wd (Path.resolve wd [cur; name]) child p m ->
    node_at wd cur (Dir es) p m.

(** The content found at a path, if a file is found there. *)
Definition file_content (o : option node) : option string :=
  match o with
  | Some (File _ content) => Some content
  | _ => None
  end.

(** The disk after [content] has been written at [p]. *)
Definition written (w : World) (p content : string) : World :=
  MkWorld (cwd w) (update_node (cwd w) (set_content content) p "/" (root w)).

(** * Properties *)

(** ** The model on small inputs *)

Example resolve_base :
  Path.resolve "/w" ["/proj"; "./src/components"] = "/proj/src/components".
Proof. reflexivity. Qed.

Example resolve_output :
  Path.resolve "/w" ["/proj"; "./src/components"; "index.ts"]
  = "/proj/src/components/index.ts".
Proof. reflexivity. Qed.

Example resolve_entry :
  Path.resolve "/w" ["/proj/src/components"; "Button"]
  = "/proj/src/components/Button".
Proof. reflexivity. Qed.

Example resolve_parent :
  Path.resolve "/w" ["proj"; "a/../b/./c/"] = "/w/proj/b/c".
Proof. reflexivity. Qed.

Example default_pattern_accepts :
  Regex.test default_regularExpression "/proj/src/components/Button/index.tsx"
  = true.
Proof. reflexivity. Qed.

Example default_pattern_refuses :
  Regex.test default_regularExpression "/proj/src/components/Button/style.css"
  = false.
Proof. reflexivity. Qed.

Example cleanKey_nested :
  cleanKey "/a/b/c/index.tsx/d/index.tsx"
  = {| key := "/a/b/c/index.tsx/d/index.tsx";
       componentName := "d";
       from := "./index.tsx/d" |}.
Proof. reflexivity. Qed.

Example equalsIgnoreOrder_counts :
  equalsIgnoreOrder ["a"; "b"; "a"] ["a"; "a"; "b"] = true /\
  equalsIgnoreOrder ["a"; "b"; "b"] ["a"; "a"; "b"] = false.
Proof. split; reflexivity. Qed.

(** ** Facts about strings *)

Module StrFacts.

Lemma append_assoc (a b c : string) : (a ++ b) ++ c = a ++ (b ++ c).
Proof. induction a as [|x a IH]; simpl; [reflexivity | now rewrite IH]. Qed.

Lemma append_nil_r (a : string) : a ++ "" = a.
Proof. induction a as [|x a IH]; simpl; [reflexivity | now rewrite IH]. Qed.

End StrFacts.

(** ** Facts about the matcher *)

Module RegexFacts.
Import Regex MatcherNotions.

Lemma match_plus_tails (it : item) (k : string -> option hit) (w : string) :
  tails_fail k w -> match_plus it k w = None.
Proof.
  induction w as [|x w IH]; simpl; [reflexivity|].
  intros [Hk Ht]. destruct (cls_match (icls it) x); [|reflexivity].
  now rewrite (IH Ht), Hk.
Qed.

(** A repetition that is not captured, when the continuation accepts what
    follows [u] and no longer repetition leads to a match. *)
Lemma match_plus_reach (it : item) (k : string -> option hit) (u v : string)
    (r : hit) :
  igroup it = false ->
  Str.all (cls_match (icls it)) u = true ->
  u <> "" ->
  match_plus it k v = None ->
  k v = Some r ->
  match_plus it k (u ++ v) = Some r.
Proof.
  intros Hg Hall Hne Hlong Hk.
  induction u as [|x u IH]; [congruence|].
  simpl in Hall. apply andb_true_iff in Hall as [Hx Hu].
  simpl. rewrite Hx. unfold capture. rewrite Hg.
  destruct u as [|y u].
  - simpl. rewrite Hlong, Hk. reflexivity.
  - rewrite IH; [reflexivity | assumption | discriminate].
Qed.

(** A captured segment [[^/]+] in front of a slash. *)
Lemma match_plus_segment (it : item) (k : string -> option hit)
    (c rest : string) :
  igroup it = true ->
  icls it = NotChr slash ->
  no_slash c = true ->
  c <> "" ->
  (forall x s, Ascii.eqb x slash = false -> k (String x s) = None) ->
  match_plus it k (c ++ String slash rest)
  = option_map (in_front c) (k (String slash rest)).
Proof.
  intros Hg Hc Hns Hne Hk.
  induction c as [|x c IH]; [congruence|].
  unfold no_slash in Hns. simpl in Hns.
  apply andb_true_iff in Hns as [Hx Hrest].
  apply negb_true_iff in Hx.
  simpl. rewrite Hc. simpl. rewrite Hx. simpl.
  unfold capture. rewrite Hg.
  destruct c as [|y c].
  - simpl. rewrite Hc.
    change (cls_match (NotChr slash) slash) with false. cbv iota.
    destruct (k (String slash rest)) as [[g r]|]; reflexivity.
  - rewrite IH; [|exact Hrest|discriminate].
    destruct (k (String slash rest)) as [[g r]|]; simpl; [reflexivity|].
    simpl in Hrest. apply andb_true_iff in Hrest as [Hy _].
    apply negb_true_iff in Hy. now rewrite (Hk y _ Hy).
Qed.

Lemma after_dot_slash_slash (its : list item) (s : string) :
  after_dot_slash its (String slash s) = match_items false its s.
Proof.
  unfold after_dot_slash. simpl.
  destruct (match_items false its s) as [[g r]|]; reflexivity.
Qed.

Lemma after_dot_slash_other (its : list item) (x : ascii) (s : string) :
  Ascii.eqb x slash = false ->
  after_dot_slash its (String x s)
  = if Ascii.eqb x "."%char
    then match s with
         | String y s' =>
             if Ascii.eqb y slash then match_items false its s' else None
         | EmptyString => None
         end
    else None.
Proof.
  intros Hx. unfold after_dot_slash.
  cbn [match_items iquant opt one icls igroup cls_match capture option_map].
  rewrite Hx.
  destruct (Ascii.eqb x "."%char); [|reflexivity].
  destruct s as [|y s']; [reflexivity|].
  destruct (Ascii.eqb y slash); [|reflexivity].
  destruct (match_items false its s') as [[g r]|]; reflexivity.
Qed.

(** [\.?\/ its] refuses a text that starts with a slash-free word followed
    by a slash, if [its] refuses what follows that slash. *)
Lemma after_dot_slash_word (its : list item) (c tail : string) :
  no_slash c = true ->
  match_items false its tail = None ->
  after_dot_slash its (c ++ String slash tail) = None.
Proof.
  intros Hns Hq. destruct c as [|x c].
  - simpl. now rewrite after_dot_slash_slash.
  - unfold no_slash in Hns. simpl in Hns.
    apply andb_true_iff in Hns as [Hx Hc]. apply negb_true_iff in Hx.
    simpl. rewrite (after_dot_slash_other its x _ Hx).
    destruct (Ascii.eqb x "."%char); [|reflexivity].
    destruct c as [|y c]; simpl.
    + exact Hq.
    + simpl in Hc. apply andb_true_iff in Hc as [Hy _].
      apply negb_true_iff in Hy. now rewrite Hy.
Qed.

Lemma tails_fail_word (its : list item) (c tail : string) :
  no_slash c = true ->
  match_items false its tail = None ->
  tails_fail (after_dot_slash its) (String slash tail) ->
  tails_fail (after_dot_slash its) (c ++ String slash tail).
Proof.
  intros Hns Hq Ht. induction c as [|x c IH]; [exact Ht|].
  unfold no_slash in Hns. simpl in Hns.
  apply andb_true_iff in Hns as [_ Hc].
  simpl. split; [now apply after_dot_slash_word | now apply IH].
Qed.

Lemma all_append (p : ascii -> bool) (a b : string) :
  Str.all p (a ++ b) = Str.all p a && Str.all p b.
Proof.
  induction a as [|x a IH]; simpl; [reflexivity|].
  now rewrite IH, andb_assoc.
Qed.

Lemma append_not_empty (a b : string) : a <> "" -> a ++ b <> "".
Proof. destruct a; [congruence | discriminate]. Qed.

Lemma literal_needs_slash (its : list item) (g : bool) (x : ascii) (s : string) :
  Ascii.eqb x slash = false ->
  match_items false (Item (Chr slash) One g :: its) (String x s) = None.
Proof. intros Hx. simpl. now rewrite Hx. Qed.

(** [([^/]+)\/index\.tsx] on a directory name followed by the file name. *)
Lemma name_items_match (c : string) :
  no_slash c = true -> c <> "" ->
  match_items false name_items (c ++ "/index.tsx") = Some (c, "").
Proof.
  intros Hns Hne. unfold name_items.
  change (match_items false (grp (plus (NotChr slash)) :: lit "/index.tsx")
            (c ++ "/index.tsx"))
    with (match_plus (grp (plus (NotChr slash)))
            (match_items false (lit "/index.tsx"))
            (c ++ String slash "index.tsx")).
  rewrite match_plus_segment; try assumption; try reflexivity.
  - simpl. unfold in_front. simpl. now rewrite StrFacts.append_nil_r.
  - intros x s Hx. apply literal_needs_slash. exact Hx.
Qed.

Lemma name_items_fail (c : string) :
  no_slash c = true ->
  tails_fail (after_dot_slash name_items) (String slash (c ++ "/index.tsx")).
Proof.
  intros Hns. simpl. split.
  - apply (after_dot_slash_word name_items c "index.tsx" Hns). reflexivity.
  - apply (tails_fail_word name_items c "index.tsx" Hns); [reflexivity|].
    simpl. repeat split; reflexivity.
Qed.

Lemma from_items_short (c : string) :
  no_slash c = true ->
  match_items false from_items (c ++ "/index.tsx") = None.
Proof.
  intros Hns. destruct c as [|x c]; [reflexivity|].
  unfold from_items.
  change (match_items false
            (grp (plus (NotChr slash)) :: grp (one (Chr slash))
               :: grp (plus (NotChr slash)) :: lit "/index.tsx")
            (String x c ++ "/index.tsx"))
    with (match_plus (grp (plus (NotChr slash)))
            (match_items false
               (grp (one (Chr slash)) :: grp (plus (NotChr slash))
                  :: lit "/index.tsx"))
            (String x c ++ String slash "index.tsx")).
  rewrite match_plus_segment; try assumption; try reflexivity.
  - discriminate.
  - intros y s Hy. apply literal_needs_slash. exact Hy.
Qed.

(** [([^/]+\/[^/]+)\/index\.tsx] on two directory names followed by the
    file name. *)
Lemma from_items_match (g c : string) :
  no_slash g = true -> g <> "" -> no_slash c = true -> c <> "" ->
  match_items false from_items (g ++ String slash (c ++ "/index.tsx"))
  = Some (g ++ String slash c, "").
Proof.
  intros Hg Hgne Hc Hcne. unfold from_items.
  change (match_items false
            (grp (plus (NotChr slash)) :: grp (one (Chr slash))
               :: grp (plus (NotChr slash)) :: lit "/index.tsx")
            (g ++ String slash (c ++ "/index.tsx")))
    with (match_plus (grp (plus (NotChr slash)))
            (match_items false (grp (one (Chr slash)) :: name_items))
            (g ++ String slash (c ++ "/index.tsx"))).
  rewrite match_plus_segment; try assumption; try reflexivity.
  - change (match_items false (grp (one (Chr slash)) :: name_items)
              (String slash (c ++ "/index.tsx")))
      with (option_map (capture (grp (one (Chr slash))) slash)
              (match_items false name_items (c ++ "/index.tsx"))).
    rewrite (name_items_match c Hc Hcne). reflexivity.
  - intros y s Hy. apply literal_needs_slash. exact Hy.
Qed.

Lemma from_items_fail (g c : string) :
  no_slash g = true -> no_slash c = true ->
  tails_fail (after_dot_slash from_items)
    (String slash (g ++ String slash (c ++ "/index.tsx"))).
Proof.
  intros Hg Hc.
  assert (Hshort := from_items_short c Hc).
  assert (Hlast : tails_fail (after_dot_slash from_items)
                    (String slash (c ++ "/index.tsx"))).
  { simpl. split.
    - apply (after_dot_slash_word from_items c "index.tsx" Hc). reflexivity.
    - apply (tails_fail_word from_items c "index.tsx" Hc); [reflexivity|].
      simpl. repeat split; reflexivity. }
  simpl. split.
  - apply (after_dot_slash_word from_items g _ Hg Hshort).
  - apply (tails_fail_word from_items g _ Hg Hshort Hlast).
Qed.

(** The two replacements of [cleanKeys] on a path of the expected form. *)
Lemma replace_componentName (u c : string) :
  u <> "" -> one_line u = true -> no_slash c = true -> c <> "" ->
  replace componentName_re (fun g => g) (u ++ String slash (c ++ "/index.tsx"))
  = c.
Proof.
  intros Hu Hline Hc Hcne. unfold replace, exec.
  change (from_start componentName_re) with true. cbv iota.
  change (match_items (to_end componentName_re) (items componentName_re)
            (u ++ String slash (c ++ "/index.tsx")))
    with (match_plus (plus Dot) (after_dot_slash name_items)
            (u ++ String slash (c ++ "/index.tsx"))).
  rewrite (match_plus_reach (plus Dot) (after_dot_slash name_items) u
             (String slash (c ++ "/index.tsx")) (c, "")).
  - simpl. apply StrFacts.append_nil_r.
  - reflexivity.
  - exact Hline.
  - exact Hu.
  - apply match_plus_tails, name_items_fail, Hc.
  - rewrite after_dot_slash_slash. apply name_items_match; assumption.
Qed.

Lemma replace_from (u g c : string) :
  u <> "" -> one_line u = true ->
  no_slash g = true -> g <> "" -> no_slash c = true -> c <> "" ->
  replace from_re (fun g => "./" ++ g)
    (u ++ String slash (g ++ String slash (c ++ "/index.tsx")))
  = "./" ++ g ++ String slash c.
Proof.
  intros Hu Hline Hg Hgne Hc Hcne. unfold replace, exec.
  change (from_start from_re) with true. cbv iota.
  change (match_items (to_end from_re) (items from_re)
            (u ++ String slash (g ++ String slash (c ++ "/index.tsx"))))
    with (match_plus (plus Dot) (after_dot_slash from_items)
            (u ++ String slash (g ++ String slash (c ++ "/index.tsx")))).
  rewrite (match_plus_reach (plus Dot) (after_dot_slash from_items) u
             (String slash (g ++ String slash (c ++ "/index.tsx")))
             (g ++ String slash c, "")).
  - simpl. now rewrite StrFacts.append_nil_r.
  - reflexivity.
  - exact Hline.
  - exact Hu.
  - apply match_plus_tails, from_items_fail; assumption.
  - rewrite after_dot_slash_slash. apply from_items_match; assumption.
Qed.

End RegexFacts.

(** C3 (as amended): for every path of the form
    [<prefix>/<dir2>/<dir1>/index.tsx], where the prefix is not empty, the
    prefix and [dir2] contain no line terminator and [dir2], [dir1] are
    non-empty names without a slash, the entry that [cleanKeys] derives
    has [componentName = dir1] and [from = ./dir2/dir1]; the entry depends
    on the path alone, wherever it stands in the list of keys. *)
Theorem cleanKeys_conforming_path (before after : list string)
    (prefix dir2 dir1 : string) :
  prefix <> "" -> one_line prefix = true ->
  dir2 <> "" -> no_slash dir2 = true -> one_line dir2 = true ->
  dir1 <> "" -> no_slash dir1 = true ->
  let path := prefix ++ "/" ++ dir2 ++ "/" ++ dir1 ++ "/index.tsx" in
  cleanKeys (before ++ path :: after)%list
  = (cleanKeys before
       ++ {| key := path;
             componentName := dir1;
             from := "./" ++ dir2 ++ "/" ++ dir1 |}
       :: cleanKeys after)%list.
Proof.
  intros Hp Hpl Hg Hgs Hgl Hc Hcs path.
  unfold cleanKeys. rewrite map_app. simpl. f_equal. f_equal.
  unfold cleanKey. f_equal.
  - subst path.
    change (prefix ++ "/" ++ dir2 ++ "/" ++ dir1 ++ "/index.tsx")
      with (prefix ++ (String slash dir2 ++ String slash (dir1 ++ "/index.tsx"))).
    rewrite <- StrFacts.append_assoc.
    apply RegexFacts.replace_componentName; try assumption.
    + apply RegexFacts.append_not_empty, Hp.
    + unfold one_line in *. rewrite RegexFacts.all_append. simpl.
      now rewrite Hpl, Hgl.
  - subst path.
    change (prefix ++ "/" ++ dir2 ++ "/" ++ dir1 ++ "/index.tsx")
      with (prefix ++ String slash (dir2 ++ String slash (dir1 ++ "/index.tsx"))).
    now apply RegexFacts.replace_from.
Qed.

Lemma cleanKeys_conforming_path_witness :
  cleanKeys ["/proj/src/components/Button/index.tsx"]
  = [ {| key := "/proj/src/components/Button/index.tsx";
         componentName := "Button";
         from := "./components/Button" |} ].
Proof.
  apply (cleanKeys_conforming_path [] [] "/proj/src" "components" "Button");
    solve [discriminate | reflexivity].
Defined.

(** C3 (as stated) fails.  A component directly below a top-level base
    directory is matched by the default pattern, and its [from] field is the
    whole path instead of [./app/Button].  A component matched by a pattern
    for another file name keeps its whole path in both fields. *)
Lemma cleanKeys_nonconforming_paths :
  (let path := "/app/Button/index.tsx" in
   Regex.test default_regularExpression path = true /\
   spec_importSpecifier path = "./app/Button" /\
   from (cleanKey path) = path) /\
  (let path := "/proj/src/components/Button/index.jsx" in
   Regex.test jsx_regularExpression path = true /\
   spec_componentName path = "Button" /\
   componentName (cleanKey path) = path) /\
  ~ (forall p, Regex.test default_regularExpression p = true ->
               componentName (cleanKey p) = spec_componentName p /\
               from (cleanKey p) = spec_importSpecifier p).
Proof.
  split; [repeat split|]. split; [repeat split|].
  intros H. specialize (H "/app/Button/index.tsx" eq_refl).
  destruct H as [_ H]. vm_compute in H. discriminate.
Qed.

(** ** [equalsIgnoreOrder] is equality of multisets *)

Lemma count_of_count_occ (v : string) (a : list string) :
  count_of v a = count_occ string_dec a v.
Proof.
  unfold count_of. induction a as [|x a IH]; simpl; [reflexivity|].
  destruct (String.eqb_spec x v) as [->|Hne].
  - destruct (string_dec v v); [simpl; now rewrite IH | congruence].
  - destruct (string_dec x v); [congruence | exact IH].
Qed.

Lemma Set_add_In (seen : list string) (v x : string) :
  In x (Set_add seen v) <-> In x seen \/ x = v.
Proof.
  unfold Set_add. destruct (existsb (String.eqb v) seen) eqn:E.
  - apply existsb_exists in E as [y [Hy Hvy]].
    apply String.eqb_eq in Hvy. subst y.
    split; [tauto | intros [H| ->]; assumption].
  - rewrite in_app_iff. simpl. firstorder congruence.
Qed.

Lemma fold_Set_add_In (l seen : list string) (x : string) :
  In x (fold_left Set_add l seen) <-> In x seen \/ In x l.
Proof.
  revert seen. induction l as [|v l IH]; intros seen; simpl; [tauto|].
  rewrite IH, Set_add_In. firstorder congruence.
Qed.

Lemma Set_of_In (l : list string) (x : string) : In x (Set_of l) <-> In x l.
Proof. unfold Set_of. rewrite fold_Set_add_In. simpl. tauto. Qed.

Lemma counts_agree_spec (a b uniqueValues : list string) :
  counts_agree a b uniqueValues = true
  <-> forall v, In v uniqueValues -> count_of v a = count_of v b.
Proof.
  induction uniqueValues as [|v rest IH]; simpl.
  - split; [intros _ v [] | reflexivity].
  - destruct (Nat.eqb_spec (count_of v a) (count_of v b)) as [E|E]; simpl.
    + rewrite IH. split.
      * intros H x [<-|Hx]; [exact E | now apply H].
      * intros H x Hx. apply H. now right.
    + split; [discriminate|]. intros H. exfalso. apply E, H. now left.
Qed.

Lemma equalsIgnoreOrder_spec (a b : list string) :
  equalsIgnoreOrder a b = true <-> Permutation a b.
Proof.
  unfold equalsIgnoreOrder.
  destruct (Nat.eqb_spec (List.length a) (List.length b)) as [El|El]; simpl.
  - rewrite counts_agree_spec, (Permutation_count_occ string_dec). split.
    + intros H v. rewrite <- !count_of_count_occ.
      destruct (in_dec string_dec v (a ++ b)%list) as [Hin|Hout].
      * apply H, Set_of_In, Hin.
      * rewrite !count_of_count_occ.
        rewrite in_app_iff in Hout.
        assert (Ha : count_occ string_dec a v = 0)
          by (apply count_occ_not_In; tauto).
        assert (Hb : count_occ string_dec b v = 0)
          by (apply count_occ_not_In; tauto).
        congruence.
    + intros H v _. rewrite !count_of_count_occ. apply H.
  - split; [discriminate|]. intros H. apply Permutation_length in H. contradiction.
Qed.

(** ** The scan, as a computation and as a function *)

Lemma with_files_same (a : Atomic) : with_files (files a) a = a.
Proof. now destruct a. Qed.

Lemma readDirectory_at_cons (r : bool) (pat : string -> bool)
    (directory file : string) (child : node) (es : list (string * node)) :
  readDirectory_at r pat directory (Dir ((file, child) :: es))
  = (fullPath <- path_resolve [directory; file] ;;
     match child with
     | Dangling => throw (ENOENT, fullPath)
     | Dir _ | Unreadable =>
         (if r then readDirectory_at r pat fullPath child else ret tt) ;;
         readDirectory_at r pat directory (Dir es)
     | File _ _ =>
         (if negb (pat fullPath) then ret tt
          else modify_self (fun a => with_files (files_set (files a) fullPath) a)) ;;
         readDirectory_at r pat directory (Dir es)
     end).
Proof. reflexivity. Qed.

Lemma scan_at_cons (wd : string) (r : bool) (pat : string -> bool)
    (directory file : string) (child : node) (es : list (string * node))
    (fs : list string) :
  scan_at wd r pat directory (Dir ((file, child) :: es)) fs
  = let fullPath := Path.resolve wd [directory; file] in
    match child with
    | Dangling => (fs, Some (ENOENT, fullPath))
    | Dir _ | Unreadable =>
        if r then
          match scan_at wd r pat fullPath child fs with
          | (fs', None) => scan_at wd r pat directory (Dir es) fs'
          | (fs', Some e) => (fs', Some e)
          end
        else scan_at wd r pat directory (Dir es) fs
    | File _ _ =>
        scan_at wd r pat directory (Dir es)
          (if negb (pat fullPath) then fs else files_set fs fullPath)
    end.
Proof. reflexivity. Qed.

#[local] Arguments readDirectory_at : simpl never.
#[local] Arguments scan_at : simpl never.
#[local] Arguments Path.resolve : simpl never.

Lemma readDirectory_at_scan (r : bool) (pat : string -> bool) (w : World)
    (n : node) :
  forall (directory : string) (a : Atomic),
    readDirectory_at r pat directory n (MkMachine a w)
    = (thrown (snd (scan_at (cwd w) r pat directory n (files a))),
       MkMachine (with_files (fst (scan_at (cwd w) r pat directory n (files a))) a) w).
Proof.
  induction n as [wr c|es IH| |] using node_induction; intros directory a;
    try (destruct a; reflexivity).
  revert a.
  induction es as [|[file child] es IHes]; intros a.
  - destruct a; reflexivity.
  - inversion IH as [|? ? Hchild Hrest]; subst. simpl in Hchild.
    specialize (IHes Hrest).
    rewrite readDirectory_at_cons, scan_at_cons.
    unfold bind at 1. cbn [path_resolve bind get_disk ret disk cwd].
    destruct child as [wr c|es'| |].
    + destruct (negb (pat (Path.resolve (cwd w) [directory; file]))).
      * unfold bind at 1. cbn [ret]. apply IHes.
      * unfold bind at 1. cbn [modify_self self disk].
        rewrite (IHes (with_files _ a)). destruct a; reflexivity.
    + destruct r.
      * unfold bind at 1. rewrite Hchild.
        destruct (scan_at (cwd w) true pat (Path.resolve (cwd w) [directory; file])
                    (Dir es') (files a)) as [fs' [e|]]; cbn [thrown fst snd];
          [reflexivity|].
        rewrite (IHes (with_files fs' a)). destruct a; reflexivity.
      * unfold bind at 1. cbn [ret]. apply IHes.
    + destruct r.
      * unfold bind at 1. rewrite Hchild. reflexivity.
      * unfold bind at 1. cbn [ret]. apply IHes.
    + destruct a; reflexivity.
Qed.

Lemma readDirectory_scan (r : bool) (pat : string -> bool) (w : World)
    (directory : string) (a : Atomic) :
  readDirectory r pat directory (MkMachine a w)
  = (thrown (snd (scan_from w r pat directory (files a))),
     MkMachine (with_files (fst (scan_from w r pat directory (files a))) a) w).
Proof.
  unfold readDirectory, scan_from, bind, get_disk. cbn [disk].
  destruct (lookup w directory) as [n|].
  - apply readDirectory_at_scan.
  - destruct a; reflexivity.
Qed.

Lemma rescan_scan (a : Atomic) (w : World) :
  rescan a w
  = match scan_from w (scanSubDirectories a) (regularExpression a)
            (resolvedBase a w) [] with
    | (fs, None) => Return fs
    | (_, Some e) => Throw e
    end.
Proof.
  unfold rescan. rewrite readDirectory_scan.
  change (files (with_files [] a)) with (@nil string).
  change (scanSubDirectories (with_files [] a)) with (scanSubDirectories a).
  change (regularExpression (with_files [] a)) with (regularExpression a).
  destruct (scan_from w (scanSubDirectories a) (regularExpression a)
              (resolvedBase a w) []) as [fs [e|]]; reflexivity.
Qed.

(** ** [check] *)

Lemma check_keys_spec (w : World) (ks : list string) :
  forall (changes : bool) (a : Atomic),
  exists l,
    check_keys (cleanKeys ks) changes (MkMachine a w)
    = (Return (changes || some_missing w ks), MkMachine (with_logged l a) w).
Proof.
  induction ks as [|k ks IH]; intros changes a.
  - exists (logged a). cbn. rewrite orb_false_r. destruct a; reflexivity.
  - cbn [cleanKeys map check_keys some_missing existsb].
    fold (cleanKeys ks). fold (some_missing w ks).
    unfold bind at 1, try_catch, accessSync, exists_on_disk.
    unfold bind at 1 2 3. cbn [get_disk disk key cleanKey].
    destruct (access_error w k) as [e|]; cbn [throw ret negb bind logger modify_self self disk].
    + match goal with
      | |- context [check_keys _ true (MkMachine ?a' w)] =>
          destruct (IH true a') as [l Hl]
      end.
      exists l. rewrite Hl. now rewrite orb_true_r.
    + match goal with
      | |- context [check_keys _ changes (MkMachine ?a' w)] =>
          destruct (IH changes a') as [l Hl]
      end.
      exists l. rewrite Hl. reflexivity.
Qed.

#[local] Arguments check_keys : simpl never.
#[local] Arguments readDirectory : simpl never.
#[local] Arguments equalsIgnoreOrder : simpl never.
#[local] Arguments cleanKeys : simpl never.

(** What [check] does, by cases on the disk. *)
Lemma check_spec (a : Atomic) (w : World) :
  exists l,
    check (MkMachine a w)
    = if some_missing w (keys a)
      then (Return (true, keys a), MkMachine (with_logged l a) w)
      else
        match scan_from w (scanSubDirectories a) (regularExpression a)
                (resolvedBase a w) [] with
        | (fs, Some e) =>
            (Throw e, MkMachine (with_files fs (with_logged l a)) w)
        | (fs, None) =>
            (Return (negb (equalsIgnoreOrder fs (keys a)), keys a),
             MkMachine (with_files fs (with_logged l a)) w)
        end.
Proof.
  unfold check.
  unfold bind at 1. cbn [logger modify_self self disk].
  unfold bind at 1. cbn [get_self self].
  unfold bind at 1. cbn [logger modify_self self disk].
  unfold bind at 1.
  match goal with
  | |- context [check_keys _ false (MkMachine ?a' w)] =>
      destruct (check_keys_spec w (keys a) false a') as [l Hl]
  end.
  cbn [keys with_logged] in Hl |- *. rewrite Hl. cbn [orb].
  destruct (some_missing w (keys a)).
  - cbn. eexists. reflexivity.
  - cbn [negb].
    unfold bind at 1 2 3. cbn [get_self path_resolve bind get_disk ret self disk].
    unfold bind at 1. cbn [logger modify_self self disk].
    unfold bind at 1. cbn [modify_self self disk].
    unfold bind at 1. rewrite readDirectory_scan. cbn.
    fold (resolvedBase a w).
    destruct (scan_from w (scanSubDirectories a) (regularExpression a)
                (resolvedBase a w) []) as [fs [e|]]; cbn.
    + eexists. reflexivity.
    + destruct (equalsIgnoreOrder fs (keys a)); cbn; eexists; reflexivity.
Qed.

Lemma some_missing_true (w : World) (ks : list string) :
  some_missing w ks = true
  <-> exists k, In k ks /\ exists_on_disk w k = false.
Proof.
  unfold some_missing. rewrite existsb_exists.
  split; intros [k [Hin Hk]]; exists k; split; try assumption.
  - now apply negb_true_iff.
  - now apply negb_true_iff.
Qed.

Lemma some_missing_false (w : World) (ks : list string) :
  some_missing w ks = false
  <-> forall k, In k ks -> exists_on_disk w k = true.
Proof.
  split.
  - intros H k Hin. destruct (exists_on_disk w k) eqn:E; [reflexivity|].
    assert (some_missing w ks = true) by (apply some_missing_true; eauto).
    congruence.
  - intros H. destruct (some_missing w ks) eqn:E; [|reflexivity].
    apply some_missing_true in E as [k [Hin Hk]].
    rewrite (H k Hin) in Hk. discriminate.
Qed.

(** C1: when [check] reports, it reports a change exactly if a stored key
    is missing on disk, or all stored keys exist and a fresh scan of the
    base directory yields paths that are not the stored keys up to order
    (as multisets); [check] reports unless all stored keys exist and the
    fresh scan throws. *)
Theorem check_reports_change (a : Atomic) (w : World) :
  match fst (check (MkMachine a w)) with
  | Return (changed, _) =>
      changed = true <->
      (exists k, In k (keys a) /\ exists_on_disk w k = false) \/
      ((forall k, In k (keys a) -> exists_on_disk w k = true) /\
       exists fileKeys,
         rescan a w = Return fileKeys /\ ~ Permutation fileKeys (keys a))
  | Throw e =>
      (forall k, In k (keys a) -> exists_on_disk w k = true) /\
      rescan a w = Throw e
  end.
Proof.
  destruct (check_spec a w) as [l Hcheck]. rewrite Hcheck. clear Hcheck.
  rewrite rescan_scan.
  destruct (some_missing w (keys a)) eqn:Hmiss.
  - cbn. split; [intros _|reflexivity].
    left. now apply some_missing_true.
  - assert (Hall := proj1 (some_missing_false w (keys a)) Hmiss).
    destruct (scan_from w (scanSubDirectories a) (regularExpression a)
                (resolvedBase a w) []) as [fs [e|]]; cbn.
    + split; [exact Hall | reflexivity].
    + rewrite negb_true_iff. split.
      * intros Hne. right. split; [exact Hall|].
        exists fs. split; [reflexivity|].
        intros Hperm. apply equalsIgnoreOrder_spec in Hperm. congruence.
      * intros [[k [Hin Hk]]|[_ [fk [Hfk Hperm]]]].
        -- rewrite (Hall k Hin) in Hk. discriminate.
        -- injection Hfk as <-.
           destruct (equalsIgnoreOrder fs (keys a)) eqn:E; [|reflexivity].
           apply equalsIgnoreOrder_spec in E. contradiction.
Qed.

(** The cases named by the specification, on the sample project. *)
Example check_after_deletion :
  fst (check (MkMachine registry_after_run project_without_Button))
  = Return (true, ["/proj/src/components/Button/index.tsx";
                   "/proj/src/components/Card/index.tsx"]).
Proof. vm_compute. reflexivity. Qed.

Example check_after_addition :
  fst (check (MkMachine registry_after_run project_with_Modal))
  = Return (true, ["/proj/src/components/Button/index.tsx";
                   "/proj/src/components/Card/index.tsx"]).
Proof. vm_compute. reflexivity. Qed.

Example check_without_change :
  fst (check (MkMachine registry_after_run project))
  = Return (false, ["/proj/src/components/Button/index.tsx";
                    "/proj/src/components/Card/index.tsx"]).
Proof. vm_compute. reflexivity. Qed.

(** C2: two lists with the same elements and multiplicities, in any order,
    are equal for [equalsIgnoreOrder]; hence [check] reports no change when
    all stored keys exist and the fresh scan yields them in another
    order. *)
Theorem equalsIgnoreOrder_any_order (fileKeys stored : list string) :
  Permutation fileKeys stored ->
  equalsIgnoreOrder fileKeys stored = true /\
  forall (a : Atomic) (w : World),
    keys a = stored ->
    (forall k, In k stored -> exists_on_disk w k = true) ->
    rescan a w = Return fileKeys ->
    fst (check (MkMachine a w)) = Return (false, stored).
Proof.
  intros Hperm.
  assert (Heq : equalsIgnoreOrder fileKeys stored = true)
    by now apply equalsIgnoreOrder_spec.
  split; [exact Heq|].
  intros a w Hkeys Hall Hscan. subst stored.
  destruct (check_spec a w) as [l Hcheck]. rewrite Hcheck. clear Hcheck.
  rewrite rescan_scan in Hscan.
  rewrite (proj2 (some_missing_false w (keys a)) Hall).
  destruct (scan_from w (scanSubDirectories a) (regularExpression a)
              (resolvedBase a w) []) as [fs [e|]]; [discriminate|].
  injection Hscan as ->. cbn. now rewrite Heq.
Qed.

Lemma equalsIgnoreOrder_any_order_witness :
  equalsIgnoreOrder
    ["/proj/src/components/Card/index.tsx"; "/proj/src/components/Button/index.tsx"]
    ["/proj/src/components/Button/index.tsx"; "/proj/src/components/Card/index.tsx"]
  = true /\
  fst (check (MkMachine registry_after_run project_reordered))
  = Return (false, ["/proj/src/components/Button/index.tsx";
                    "/proj/src/components/Card/index.tsx"]).
Proof.
  destruct (equalsIgnoreOrder_any_order
              ["/proj/src/components/Card/index.tsx";
               "/proj/src/components/Button/index.tsx"]
              ["/proj/src/components/Button/index.tsx";
               "/proj/src/components/Card/index.tsx"]
              (perm_swap _ _ _)) as [Heq Hcheck].
  split; [exact Heq|].
  apply Hcheck.
  - reflexivity.
  - intros k [<-|[<-|[]]]; reflexivity.
  - reflexivity.
Defined.

(** C9: [check] leaves the stored keys and the disk as they were, whether
    it reports or throws, and the key list handed to the callback is the
    stored one. *)
Theorem check_frame (a : Atomic) (w : World) :
  keys (self (snd (check (MkMachine a w)))) = keys a /\
  disk (snd (check (MkMachine a w))) = w /\
  forall changed ks,
    fst (check (MkMachine a w)) = Return (changed, ks) -> ks = keys a.
Proof.
  destruct (check_spec a w) as [l Hcheck]. rewrite Hcheck. clear Hcheck.
  destruct (some_missing w (keys a)).
  - cbn. repeat split. intros changed ks H. now injection H as _ <-.
  - destruct (scan_from w (scanSubDirectories a) (regularExpression a)
                (resolvedBase a w) []) as [fs [e|]]; cbn.
    + repeat split. intros changed ks H. discriminate.
    + repeat split. intros changed ks H. now injection H as _ <-.
Qed.

(** ** [run] *)

#[local] Arguments write_file : simpl never.
#[local] Arguments access_error : simpl never.
#[local] Arguments Str.of_nat : simpl never.
#[local] Arguments String.append : simpl never.

(** What [run] does, by cases on the disk; [news] is what it logs. *)
Lemma run_spec (a : Atomic) (w : World) :
  match access_error w (resolvedBase a w) with
  | Some e =>
      exists news,
        run (MkMachine a w)
        = (Return None, MkMachine (with_logged (logged a ++ news) a) w) /\
        In (error_level,
            ["Unable to find " ++ resolvedBase a w ++ " check your settings base"])
           news
  | None =>
  match access_error w (resolvedOutput a w) with
  | Some e =>
      exists news,
        run (MkMachine a w)
        = (Return None, MkMachine (with_logged (logged a ++ news) a) w) /\
        In (error_level,
            ["Unable to find " ++ resolvedOutput a w
               ++ " check your [output] and [base] options"]) news
  | None =>
  match scan_from w (scanSubDirectories a) (regularExpression a)
          (resolvedBase a w) [] with
  | (fs, Some e) =>
      exists news,
        run (MkMachine a w)
        = (Throw e, MkMachine (with_files fs (with_logged (logged a ++ news) a)) w)
  | (fs, None) =>
  match write_file w (resolvedOutput a w) (barrel (header a) fs) with
  | inr e =>
      exists news,
        run (MkMachine a w)
        = (Return None,
           MkMachine
             (with_keys fs (with_files fs (with_logged (logged a ++ news) a))) w) /\
        In (error_level, ["Error writing 'index.ts'"; error_text e]) news
  | inl w' =>
      exists news,
        run (MkMachine a w)
        = (Return (Some fs),
           MkMachine
             (with_keys fs (with_files fs (with_logged (logged a ++ news) a))) w')
  end end end end.
Proof.
  unfold resolvedBase, resolvedOutput, barrel.
  unfold run.
  unfold or_return_empty, try_catch, accessSync, getComponents, writeFileSync,
    bind, logger, modify_self, get_self, get_disk, path_resolve, ret, throw.
  cbn.
  destruct (access_error w (Path.resolve (cwd w) [context a; base a])) as [e|];
    cbn.
  { eexists. split; [rewrite <- !app_assoc; reflexivity|]. simpl. tauto. }
  destruct (access_error w (Path.resolve (cwd w) [context a; base a; output a]))
    as [e|]; cbn.
  { eexists. split; [rewrite <- !app_assoc; reflexivity|]. simpl. tauto. }
  rewrite readDirectory_scan. cbn.
  destruct (scan_from w (scanSubDirectories a) (regularExpression a)
              (Path.resolve (cwd w) [context a; base a]) []) as [fs [e|]]; cbn.
  { eexists. rewrite <- !app_assoc. reflexivity. }
  destruct (write_file w (Path.resolve (cwd w) [context a; base a; output a])
              (header a ++ Str.join_empty (map export_line (cleanKeys fs))))
    as [w'|e]; cbn.
  - eexists. rewrite <- !app_assoc. reflexivity.
  - eexists. split; [rewrite <- !app_assoc; reflexivity|]. simpl. tauto.
Qed.

(** ** Reading, writing and comparing trees *)

Lemma find_node_Dir (wd p cur : string) (es : list (string * node)) :
  find_node wd p cur (Dir es)
  = if String.eqb cur p then Some (Dir es) else find_first wd p cur es.
Proof.
  cbn [find_node]. destruct (String.eqb cur p); [reflexivity|].
  induction es as [|[name child] es IH]; [reflexivity|].
  cbn [find_first fold_right fst snd]. rewrite IH. reflexivity.
Qed.

Lemma update_node_Dir (wd : string) (f : node -> node) (p cur : string)
    (es : list (string * node)) :
  update_node wd f p cur (Dir es)
  = if String.eqb cur p then f (Dir es)
    else Dir (update_entries wd f p cur es).
Proof.
  cbn [update_node]. destruct (String.eqb cur p); [reflexivity|].
  f_equal. induction es as [|[name child] es IH]; [reflexivity|].
  cbn [update_entries map fst snd]. rewrite IH. reflexivity.
Qed.

Lemma same_shape_Dir (es es' : list (string * node)) :
  same_shape (Dir es) (Dir es') <-> same_entries es es'.
Proof.
  cbn [same_shape]. revert es'.
  induction es as [|[name child] es IH]; intros [|[name' child'] es'].
  - split; [constructor | trivial].
  - split; [intros [] | intros H; inversion H].
  - split; [intros [] | intros H; inversion H].
  - split.
    + intros [Hn [Hc Hr]]. constructor; [split; assumption | now apply IH].
    + intros H. inversion H as [|? ? ? ? [Hn Hc] Hr]; subst.
      split; [exact Hn|]. split; [exact Hc | now apply IH].
Qed.

Lemma find_node_here (wd p cur : string) (n : node) :
  String.eqb cur p = true -> find_node wd p cur n = Some n.
Proof.
  intros E. destruct n; simpl; now rewrite E.
Qed.

Lemma update_node_here (wd : string) (f : node -> node) (p cur : string)
    (n : node) :
  String.eqb cur p = true -> update_node wd f p cur n = f n.
Proof.
  intros E. destruct n; simpl; now rewrite E.
Qed.

(** Reading back what has been written. *)
Lemma find_update (wd : string) (f : node -> node) (p : string) (n : node) :
  forall cur,
    find_node wd p cur (update_node wd f p cur n)
    = option_map f (find_node wd p cur n).
Proof.
  induction n as [wr c|es IH| |] using node_induction; intros cur;
    destruct (String.eqb cur p) eqn:E;
    try (rewrite update_node_here, !find_node_here by exact E; reflexivity);
    try (simpl; rewrite E; simpl; now rewrite E).
  rewrite update_node_Dir, (find_node_Dir wd p cur es), E.
  rewrite find_node_Dir, E.
  induction es as [|[name child] es IHes]; [reflexivity|].
  inversion IH as [|? ? Hchild Hrest]; subst. simpl in Hchild.
  cbn [update_entries map find_first fold_right fst snd].
  rewrite Hchild.
  destruct (find_node wd p (Path.resolve wd [cur; name]) child) as [r|];
    [reflexivity|].
  apply (IHes Hrest).
Qed.

Lemma write_then_read (w w' : World) (p content : string) :
  write_file w p content = inl w' ->
  read_file w' p = Some content /\ cwd w' = cwd w /\
  root w' = update_node (cwd w) (set_content content) p "/" (root w) /\
  exists old, lookup w p = Some (File true old).
Proof.
  unfold write_file, read_file, lookup.
  destruct (find_node (cwd w) p "/" (root w)) as [[[|] old| | |]|] eqn:E;
    try discriminate.
  intros H. injection H as <-. cbn [cwd root].
  rewrite find_update, E. cbn. repeat split. now exists old.
Qed.

Lemma same_shape_refl (n : node) : same_shape n n.
Proof.
  induction n as [wr c|es IH| |] using node_induction;
    try solve [simpl; trivial].
  apply same_shape_Dir. unfold same_entries.
  induction IH as [|e es He Hes IHes]; constructor; [split; [reflexivity | exact He] | exact IHes].
Qed.

Lemma same_shape_update (wd content p : string) (n : node) :
  forall cur, same_shape (update_node wd (set_content content) p cur n) n.
Proof.
  induction n as [wr c|es IH| |] using node_induction; intros cur;
    try solve [simpl; destruct (String.eqb cur p); simpl; trivial].
  rewrite update_node_Dir.
  destruct (String.eqb cur p); [apply same_shape_refl|].
  apply same_shape_Dir. unfold same_entries, update_entries.
  induction IH as [|e es He Hes IHes]; constructor.
  - split; [reflexivity | apply He].
  - exact IHes.
Qed.

Lemma find_node_shape (wd p : string) (n : node) :
  forall n' cur,
    same_shape n n' ->
    same_found (find_node wd p cur n) (find_node wd p cur n').
Proof.
  induction n as [wr c|es IH| |] using node_induction; intros n' cur Hs;
    destruct n' as [wr' c'|es'| |]; try (simpl in Hs; contradiction);
    try solve [simpl; destruct (String.eqb cur p); simpl; trivial].
  rewrite !find_node_Dir.
  destruct (String.eqb cur p); [exact Hs|].
  apply same_shape_Dir in Hs. unfold same_entries in Hs.
  revert IH. induction Hs as [|[name child] [name' child'] es es' [Hn Hc] Hr IHr];
    intros IH; [simpl; trivial|].
  inversion IH as [|? ? Hchild Hrest]; subst. simpl in Hchild, Hn, Hc. subst name'.
  cbn [find_first fold_right fst snd].
  specialize (Hchild child' (Path.resolve wd [cur; name]) Hc).
  unfold same_found in Hchild.
  destruct (find_node wd p (Path.resolve wd [cur; name]) child) as [m|],
           (find_node wd p (Path.resolve wd [cur; name]) child') as [m'|];
    try contradiction.
  - exact Hchild.
  - apply (IHr Hrest).
Qed.

Lemma scan_at_shape (wd : string) (r : bool) (pat : string -> bool) (n : node) :
  forall n' directory fs,
    same_shape n n' ->
    scan_at wd r pat directory n fs = scan_at wd r pat directory n' fs.
Proof.
  induction n as [wr c|es IH| |] using node_induction; intros n' directory fs Hs;
    destruct n' as [wr' c'|es'| |]; try (simpl in Hs; contradiction);
    try reflexivity.
  apply same_shape_Dir in Hs. unfold same_entries in Hs.
  revert fs IH.
  induction Hs as [|[name child] [name' child'] es es' [Hn Hc] Hr IHr];
    intros fs IH; [reflexivity|].
  inversion IH as [|? ? Hchild Hrest]; subst. simpl in Hchild, Hn, Hc. subst name'.
  rewrite !scan_at_cons. cbv zeta.
  destruct child as [wr c|ces| |], child' as [wr' c'|ces'| |];
    try (simpl in Hc; contradiction).
  - apply (IHr _ Hrest).
  - destruct r.
    + rewrite (Hchild (Dir ces') _ fs Hc).
      destruct (scan_at wd true pat (Path.resolve wd [directory; name]) (Dir ces') fs)
        as [fs' [e|]]; [reflexivity|]. apply (IHr _ Hrest).
    + apply (IHr _ Hrest).
  - destruct r.
    + destruct (scan_at wd true pat (Path.resolve wd [directory; name]) Unreadable fs)
        as [fs' [e|]]; [reflexivity|]. apply (IHr _ Hrest).
    + apply (IHr _ Hrest).
  - reflexivity.
Qed.

Lemma lookup_shape (w w' : World) (p : string) :
  same_disk w w' -> same_found (lookup w p) (lookup w' p).
Proof.
  intros [Hcwd Hroot]. unfold lookup. rewrite <- Hcwd.
  now apply find_node_shape.
Qed.

Lemma access_error_shape (w w' : World) (p : string) :
  same_disk w w' -> access_error w p = access_error w' p.
Proof.
  intros Hd. apply (lookup_shape w w' p) in Hd.
  unfold access_error, same_found in *.
  destruct (lookup w p) as [[]|], (lookup w' p) as [[]|];
    simpl in Hd; try contradiction; reflexivity.
Qed.

Lemma scan_from_shape (w w' : World) (r : bool) (pat : string -> bool)
    (directory : string) (fs : list string) :
  same_disk w w' ->
  scan_from w r pat directory fs = scan_from w' r pat directory fs.
Proof.
  intros Hd. assert (Hl := lookup_shape w w' directory Hd).
  destruct Hd as [Hcwd _]. unfold scan_from, same_found in *. rewrite <- Hcwd.
  destruct (lookup w directory) as [n|], (lookup w' directory) as [n'|];
    try contradiction; [|reflexivity].
  now apply scan_at_shape.
Qed.

Lemma write_file_shape (w w' : World) (p content : string) :
  same_disk w w' ->
  same_written (write_file w p content) (write_file w' p content).
Proof.
  intros Hd. apply (lookup_shape w w' p) in Hd.
  unfold write_file, same_found, same_written in *.
  destruct (lookup w p) as [[[|] c|es| |]|], (lookup w' p) as [[[|] c'|es'| |]|];
    simpl in Hd; try contradiction; try discriminate; trivial.
Qed.

Lemma run_outcome_shape (a a' : Atomic) (w w' : World) :
  same_settings a a' -> same_disk w w' ->
  fst (run (MkMachine a w)) = fst (run (MkMachine a' w')).
Proof.
  intros (Hc & Hb & Ho & Hh & Hre & Hsub) Hd.
  assert (Hrb : resolvedBase a' w' = resolvedBase a w).
  { unfold resolvedBase. destruct Hd as [-> _]. now rewrite Hc, Hb. }
  assert (Hro : resolvedOutput a' w' = resolvedOutput a w).
  { unfold resolvedOutput. destruct Hd as [-> _]. now rewrite Hc, Hb, Ho. }
  assert (H := run_spec a w). assert (H' := run_spec a' w').
  rewrite Hrb, Hro, <- Hsub, <- Hre, <- Hh in H'.
  rewrite <- (access_error_shape w w' _ Hd) in H'.
  rewrite <- (access_error_shape w w' _ Hd) in H'.
  rewrite <- (scan_from_shape w w' _ _ _ _ Hd) in H'.
  destruct (access_error w (resolvedBase a w)) as [e|].
  { destruct H as [l [-> _]], H' as [l' [-> _]]. reflexivity. }
  destruct (access_error w (resolvedOutput a w)) as [e|].
  { destruct H as [l [-> _]], H' as [l' [-> _]]. reflexivity. }
  destruct (scan_from w (scanSubDirectories a) (regularExpression a)
              (resolvedBase a w) []) as [fs [e|]].
  { destruct H as [l ->], H' as [l' ->]. reflexivity. }
  assert (Hw := write_file_shape w w' (resolvedOutput a w) (barrel (header a) fs) Hd).
  unfold same_written in Hw.
  destruct (write_file w (resolvedOutput a w) (barrel (header a) fs)) as [w1|e],
           (write_file w' (resolvedOutput a w) (barrel (header a) fs)) as [w1'|e'];
    try contradiction.
  - destruct H as [l ->], H' as [l' ->]. reflexivity.
  - destruct H as [l [-> _]], H' as [l' [-> _]]. reflexivity.
Qed.

(** What [run] leaves behind. *)
Lemma run_leaves (a : Atomic) (w : World) :
  let m1 := snd (run (MkMachine a w)) in
  same_settings (self m1) a /\ same_disk (disk m1) w /\
  match fst (run (MkMachine a w)) with
  | Return (Some ks) =>
      read_file (disk m1) (resolvedOutput a w) = Some (barrel (header a) ks) /\
      keys (self m1) = ks /\
      scan_from w (scanSubDirectories a) (regularExpression a)
        (resolvedBase a w) [] = (ks, None)
  | _ => disk m1 = w
  end.
Proof.
  assert (Hsame : same_disk w w) by (split; [reflexivity | apply same_shape_refl]).
  assert (H := run_spec a w).
  destruct (access_error w (resolvedBase a w)) as [e|].
  { destruct H as [l [-> _]]. cbn. repeat split; try reflexivity; apply Hsame. }
  destruct (access_error w (resolvedOutput a w)) as [e|].
  { destruct H as [l [-> _]]. cbn. repeat split; try reflexivity; apply Hsame. }
  destruct (scan_from w (scanSubDirectories a) (regularExpression a)
              (resolvedBase a w) []) as [fs [e|]].
  { destruct H as [l ->]. cbn. repeat split; try reflexivity; apply Hsame. }
  destruct (write_file w (resolvedOutput a w) (barrel (header a) fs))
    as [w1|e] eqn:Hw.
  - destruct H as [l ->].
    apply write_then_read in Hw as (Hread & Hcwd & Hroot & _).
    cbn. repeat split; try reflexivity; try assumption.
    rewrite Hroot. apply same_shape_update.
  - destruct H as [l [-> _]]. cbn. repeat split; try reflexivity; apply Hsame.
Qed.

(** C5: after a successful [run], the barrel file holds the header followed
    by one line [export { default as <componentName> } from '<from>'] per
    path of the scan, in scan order, each ended by a newline, and nothing
    else; the paths are those of a fresh scan and become the stored keys. *)
Theorem run_output_content (a : Atomic) (w : World) (ks : list string) :
  fst (run (MkMachine a w)) = Return (Some ks) ->
  read_file (disk (snd (run (MkMachine a w)))) (resolvedOutput a w)
  = Some (header a
            ++ Str.join_empty
                 (map (fun path =>
                         "export { default as " ++ componentName (cleanKey path)
                           ++ " } from '" ++ from (cleanKey path) ++ "'"
                           ++ String "010"%char "") ks)) /\
  rescan a w = Return ks /\
  keys (self (snd (run (MkMachine a w)))) = ks.
Proof.
  intros Hrun. destruct (run_leaves a w) as (_ & _ & H).
  rewrite Hrun in H. destruct H as (Hread & Hkeys & Hscan).
  split; [|split].
  - rewrite Hread. unfold barrel, cleanKeys. rewrite map_map. reflexivity.
  - rewrite rescan_scan, Hscan. reflexivity.
  - exact Hkeys.
Qed.

Lemma run_output_content_witness :
  read_file (disk (snd (run (MkMachine registry project))))
    "/proj/src/components/index.ts"
  = Some ("// generated" ++ String "010"%char
            ("export { default as Button } from './components/Button'"
               ++ String "010"%char
            ("export { default as Card } from './components/Card'"
               ++ String "010"%char ""))).
Proof.
  destruct (run_output_content registry project
              ["/proj/src/components/Button/index.tsx";
               "/proj/src/components/Card/index.tsx"] eq_refl) as [Hread _].
  exact Hread.
Defined.


(** C7: when the base directory or the barrel file cannot be accessed,
    [run] returns the empty result without throwing, logs an error, and
    leaves the disk, the stored keys and [files] as they were. *)
Theorem run_aborts_when_inaccessible (a : Atomic) (w : World) :
  exists_on_disk w (resolvedBase a w) = false \/
  exists_on_disk w (resolvedOutput a w) = false ->
  let m' := snd (run (MkMachine a w)) in
  fst (run (MkMachine a w)) = Return None /\
  disk m' = w /\
  keys (self m') = keys a /\
  files (self m') = files a /\
  exists news message,
    logged (self m') = (logged a ++ news)%list /\
    In (error_level, [message]) news.
Proof.
  intros Hmissing m'. subst m'. unfold exists_on_disk in Hmissing.
  assert (H := run_spec a w).
  destruct (access_error w (resolvedBase a w)) as [e|].
  { destruct H as [news [-> Hin]]. cbn. repeat split.
    exists news. eexists. split; [reflexivity | exact Hin]. }
  destruct (access_error w (resolvedOutput a w)) as [e|].
  { destruct H as [news [-> Hin]]. cbn. repeat split.
    exists news. eexists. split; [reflexivity | exact Hin]. }
  destruct Hmissing; discriminate.
Qed.

Lemma run_aborts_when_inaccessible_witness :
  fst (run (MkMachine registry project_without_base)) = Return None /\
  disk (snd (run (MkMachine registry project_without_base))) = project_without_base.
Proof.
  destruct (run_aborts_when_inaccessible registry project_without_base
              (or_introl eq_refl)) as (Hret & Hdisk & _).
  split; [exact Hret | exact Hdisk].
Defined.

(** C8: when the scan succeeds and the write of the barrel file fails,
    [run] logs the failure and returns the empty result, the disk is as it
    was, and the stored keys are those of the fresh scan. *)
Theorem run_keeps_new_keys_when_write_fails (a : Atomic) (w : World)
    (fs : list string) (e : error) :
  exists_on_disk w (resolvedBase a w) = true ->
  exists_on_disk w (resolvedOutput a w) = true ->
  rescan a w = Return fs ->
  write_file w (resolvedOutput a w) (barrel (header a) fs) = inr e ->
  let m' := snd (run (MkMachine a w)) in
  fst (run (MkMachine a w)) = Return None /\
  keys (self m') = fs /\
  disk m' = w /\
  exists news,
    logged (self m') = (logged a ++ news)%list /\
    In (error_level, ["Error writing 'index.ts'"; error_text e]) news.
Proof.
  intros Hbase Hout Hscan Hwrite m'. subst m'.
  unfold exists_on_disk in Hbase, Hout. rewrite rescan_scan in Hscan.
  assert (H := run_spec a w).
  destruct (access_error w (resolvedBase a w)); [discriminate|].
  destruct (access_error w (resolvedOutput a w)); [discriminate|].
  destruct (scan_from w (scanSubDirectories a) (regularExpression a)
              (resolvedBase a w) []) as [fs' [e'|]]; [discriminate|].
  injection Hscan as ->. rewrite Hwrite in H.
  destruct H as [news [-> Hin]]. cbn. repeat split.
  exists news. split; [reflexivity | exact Hin].
Qed.

Lemma run_keeps_new_keys_when_write_fails_witness :
  fst (run (MkMachine registry project_read_only)) = Return None /\
  keys (self (snd (run (MkMachine registry project_read_only))))
  = ["/proj/src/components/Button/index.tsx";
     "/proj/src/components/Card/index.tsx"].
Proof.
  destruct (run_keeps_new_keys_when_write_fails registry project_read_only
              ["/proj/src/components/Button/index.tsx";
               "/proj/src/components/Card/index.tsx"]
              (EACCES, "/proj/src/components/index.ts")
              eq_refl eq_refl eq_refl eq_refl) as (Hret & Hkeys & _).
  split; [exact Hret | exact Hkeys].
Defined.



(** ** What the scan collects *)

Lemma files_set_In (fs : list string) (q p : string) :
  In p (files_set fs q) <-> In p fs \/ p = q.
Proof.
  unfold files_set. destruct (existsb (String.eqb q) fs) eqn:E.
  - apply existsb_exists in E as [y [Hy Hqy]].
    apply String.eqb_eq in Hqy. subst y.
    split; [tauto | intros [H| ->]; assumption].
  - rewrite in_app_iff. simpl. firstorder congruence.
Qed.

Lemma file_below_nil (wd : string) (r : bool) (directory p : string) :
  ~ file_below wd r directory (Dir []) p.
Proof. intros H. inversion H; subst; contradiction. Qed.

Lemma file_below_cons (wd : string) (r : bool) (directory name p : string)
    (child : node) (es : list (string * node)) :
  file_below wd r directory (Dir ((name, child) :: es)) p
  <-> ((exists writable content, child = File writable content) /\
       p = Path.resolve wd [directory; name])
      \/ (r = true /\ file_below wd r (Path.resolve wd [directory; name]) child p)
      \/ file_below wd r directory (Dir es) p.
Proof.
  split.
  - intros H. inversion H as [? ? name' wr c Hin|? ? name' child' ? Hr Hin Hbelow];
      subst.
    + destruct Hin as [Heq|Hin].
      * injection Heq as Hn Hc. subst. left. split; [now exists wr, c | reflexivity].
      * right. right. now apply file_here with (writable := wr) (content := c).
    + destruct Hin as [Heq|Hin].
      * injection Heq as Hn Hc. subst. right. left. now split.
      * right. right. now apply file_deeper with (name := name') (child := child').
  - intros [[[wr [c ->]] ->]|[[Hr Hbelow]|Hrest]].
    + apply file_here with (writable := wr) (content := c). now left.
    + apply file_deeper with (name := name) (child := child);
        [assumption | now left | assumption].
    + inversion Hrest as [? ? name' wr c Hin|? ? name' child' ? Hr Hin Hbelow];
        subst.
      * apply file_here with (writable := wr) (content := c). now right.
      * apply file_deeper with (name := name') (child := child');
          [reflexivity | now right | assumption].
Qed.

Lemma file_below_not_dir (wd : string) (r : bool) (directory p : string)
    (n : node) :
  file_below wd r directory n p -> exists es, n = Dir es.
Proof. intros H. inversion H; subst; eauto. Qed.

(** A scan that does not throw records exactly the matching files below
    the directory, on top of what was recorded before. *)
Lemma scan_at_collects (wd : string) (r : bool) (pat : string -> bool) (n : node) :
  forall directory fs fs',
    scan_at wd r pat directory n fs = (fs', None) ->
    forall p,
      In p fs' <-> In p fs \/ (file_below wd r directory n p /\ pat p = true).
Proof.
  induction n as [wr c|es IH| |] using node_induction;
    intros directory fs fs' Hscan; try discriminate.
  revert fs Hscan.
  induction es as [|[name child] es IHes]; intros fs Hscan p.
  - injection Hscan as <-. split; [tauto|].
    intros [H|[H _]]; [exact H | now apply file_below_nil in H].
  - inversion IH as [|? ? Hchild Hrest]; subst. simpl in Hchild.
    specialize (IHes Hrest).
    rewrite scan_at_cons in Hscan. cbv zeta in Hscan.
    rewrite file_below_cons.
    destruct child as [wr c|ces| |].
    + rewrite (IHes _ Hscan p).
      destruct (pat (Path.resolve wd [directory; name])) eqn:Hpat; cbn [negb].
      * rewrite files_set_In. split.
        -- intros [[H| ->]|[H Hp]]; [tauto| |tauto].
           right. split; [|exact Hpat]. left. split; [now exists wr, c | reflexivity].
        -- intros [H|[[[_ ->]|[[_ H]|H]] Hp]]; try tauto.
           apply file_below_not_dir in H as [es' H]. discriminate.
      * split.
        -- intros [H|[H Hp]]; tauto.
        -- intros [H|[[[_ ->]|[[_ H]|H]] Hp]]; try tauto; [congruence|].
           apply file_below_not_dir in H as [es' H]. discriminate.
    + destruct r.
      * destruct (scan_at wd true pat (Path.resolve wd [directory; name]) (Dir ces) fs)
          as [fs1 [e|]] eqn:Hsub; [discriminate|].
        rewrite (IHes _ Hscan p), (Hchild _ _ _ Hsub p). split.
        -- intros [[H|[H Hp]]|[H Hp]]; try tauto.
        -- intros [H|[[[[wr [c Hf]] _]|[[_ H]|H]] Hp]]; try tauto. discriminate.
      * rewrite (IHes _ Hscan p). split.
        -- intros [H|[H Hp]]; tauto.
        -- intros [H|[[[[wr [c Hf]] _]|[[Hr _]|H]] Hp]]; try tauto; discriminate.
    + destruct r.
      * discriminate.
      * rewrite (IHes _ Hscan p). split.
        -- intros [H|[H Hp]]; tauto.
        -- intros [H|[[[[wr [c Hf]] _]|[[Hr _]|H]] Hp]]; try tauto; discriminate.
    + discriminate.
Qed.

Lemma readable_cons (r : bool) (name : string) (child : node)
    (es : list (string * node)) :
  readable r (Dir ((name, child) :: es))
  = match child with
    | Dangling => false
    | File _ _ => true
    | Dir _ | Unreadable => if r then readable r child else true
    end && readable r (Dir es).
Proof. reflexivity. Qed.

#[local] Arguments readable : simpl never.

(** The scan of a readable directory does not throw. *)
Lemma scan_at_readable (wd : string) (r : bool) (pat : string -> bool) (n : node) :
  forall directory fs,
    readable r n = true -> snd (scan_at wd r pat directory n fs) = None.
Proof.
  induction n as [wr c|es IH| |] using node_induction;
    intros directory fs Hread; try discriminate.
  revert fs.
  induction es as [|[name child] es IHes]; intros fs; [reflexivity|].
  inversion IH as [|? ? Hchild Hrest]; subst. simpl in Hchild.
  rewrite readable_cons in Hread. apply andb_true_iff in Hread as [Hc Hes].
  specialize (IHes Hrest Hes).
  rewrite scan_at_cons. cbv zeta.
  destruct child as [wr c|ces| |]; try discriminate.
  - apply IHes.
  - destruct r; [|apply IHes].
    specialize (Hchild (Path.resolve wd [directory; name]) fs Hc).
    destruct (scan_at wd true pat (Path.resolve wd [directory; name]) (Dir ces) fs)
      as [fs1 [e|]]; [discriminate | apply IHes].
  - destruct r; [discriminate | apply IHes].
Qed.

Lemma getComponents_spec (directory : string) (r : bool) (pat : string -> bool)
    (a : Atomic) (w : World) :
  exists l,
    getComponents directory r pat (MkMachine a w)
    = match scan_from w r pat directory [] with
      | (fs, None) =>
          (Return fs, MkMachine (with_keys fs (with_files fs (with_logged l a))) w)
      | (fs, Some e) =>
          (Throw e, MkMachine (with_files fs (with_logged l a)) w)
      end.
Proof.
  unfold getComponents, bind, logger, modify_self, get_self, ret. cbn.
  rewrite readDirectory_scan. cbn.
  destruct (scan_from w r pat directory []) as [fs [e|]]; cbn;
    eexists; reflexivity.
Qed.




(** * Further properties *)

(** ** [equalsIgnoreOrder] *)

(** X1: [equalsIgnoreOrder] holds exactly when every value occurs as often
    in one list as in the other; the comparison of the lengths adds
    nothing to the comparison of the counts. *)
Theorem equalsIgnoreOrder_iff_counts (a b : list string) :
  equalsIgnoreOrder a b = true <-> forall v, count_of v a = count_of v b.
Proof.
  rewrite equalsIgnoreOrder_spec, (Permutation_count_occ string_dec).
  split; intros H v.
  - rewrite !count_of_count_occ. apply H.
  - rewrite <- !count_of_count_occ. apply H.
Qed.

(** X2: [equalsIgnoreOrder] does not depend on the order of its two
    arguments, and a list equals itself. *)
Theorem equalsIgnoreOrder_symmetric (a b : list string) :
  equalsIgnoreOrder a b = equalsIgnoreOrder b a /\ equalsIgnoreOrder a a = true.
Proof.
  split.
  - destruct (equalsIgnoreOrder a b) eqn:Eab, (equalsIgnoreOrder b a) eqn:Eba;
      try reflexivity.
    + apply equalsIgnoreOrder_spec, Permutation_sym, equalsIgnoreOrder_spec in Eab.
      congruence.
    + apply equalsIgnoreOrder_spec, Permutation_sym, equalsIgnoreOrder_spec in Eba.
      congruence.
  - apply equalsIgnoreOrder_spec, Permutation_refl.
Qed.

(** ** The scan *)

Lemma files_set_NoDup (fs : list string) (q : string) :
  NoDup fs -> NoDup (files_set fs q).
Proof.
  intros H. unfold files_set. destruct (existsb (String.eqb q) fs) eqn:E;
    [exact H|].
  apply NoDup_app; repeat split.
  - exact H.
  - constructor; [intros [] | constructor].
  - intros x Hx [Hq|[]]. subst x.
    assert (existsb (String.eqb q) fs = true); [|congruence].
    apply existsb_exists. exists q. split; [exact Hx | apply String.eqb_refl].
Qed.

Lemma scan_at_NoDup (wd : string) (r : bool) (pat : string -> bool) (n : node) :
  forall directory fs,
    NoDup fs -> NoDup (fst (scan_at wd r pat directory n fs)).
Proof.
  induction n as [wr c|es IH| |] using node_induction;
    intros directory fs Hfs; try exact Hfs.
  revert fs Hfs.
  induction es as [|[name child] es IHes]; intros fs Hfs; [exact Hfs|].
  inversion IH as [|? ? Hchild Hrest]; subst. simpl in Hchild.
  specialize (IHes Hrest).
  rewrite scan_at_cons. cbv zeta.
  destruct child as [wr c|ces| |].
  - apply IHes. destruct (negb (pat _)); [exact Hfs | now apply files_set_NoDup].
  - destruct r; [|now apply IHes].
    specialize (Hchild (Path.resolve wd [directory; name]) fs Hfs).
    destruct (scan_at wd true pat (Path.resolve wd [directory; name]) (Dir ces) fs)
      as [fs1 [e|]]; [exact Hchild | now apply IHes].
  - destruct r; [exact Hfs | now apply IHes].
  - exact Hfs.
Qed.

(** X3: the list of paths that [getComponents] returns has no path
    twice. *)
Theorem getComponents_no_duplicates (a : Atomic) (w : World) (directory : string)
    (recursive : bool) (pattern : string -> bool) (ks : list string) :
  fst (getComponents directory recursive pattern (MkMachine a w)) = Return ks ->
  NoDup ks.
Proof.
  destruct (getComponents_spec directory recursive pattern a w) as [l ->].
  assert (H : NoDup (fst (scan_from w recursive pattern directory []))).
  { unfold scan_from. destruct (lookup w directory) as [n|]; [|constructor].
    apply scan_at_NoDup. constructor. }
  destruct (scan_from w recursive pattern directory []) as [fs [e|]]; cbn;
    [discriminate|].
  intros Hret. injection Hret as <-. exact H.
Qed.

Lemma getComponents_no_duplicates_witness :
  NoDup ["/proj/src/components/Button/index.tsx";
         "/proj/src/components/Card/index.tsx"].
Proof.
  apply (getComponents_no_duplicates registry project "/proj/src/components" true
           (Regex.test default_regularExpression)).
  reflexivity.
Defined.

(** ** [run] and [check] *)

(** X4: when [run] throws, the stored keys and the disk are as they were
    before the call. *)
Theorem run_throw_frame (a : Atomic) (w : World) (e : error) :
  fst (run (MkMachine a w)) = Throw e ->
  keys (self (snd (run (MkMachine a w)))) = keys a /\
  disk (snd (run (MkMachine a w))) = w.
Proof.
  assert (H := run_spec a w).
  destruct (access_error w (resolvedBase a w)).
  { destruct H as [news [-> _]]. discriminate. }
  destruct (access_error w (resolvedOutput a w)).
  { destruct H as [news [-> _]]. discriminate. }
  destruct (scan_from w (scanSubDirectories a) (regularExpression a)
              (resolvedBase a w) []) as [fs [e'|]].
  { destruct H as [news ->]. cbn. intros _. split; reflexivity. }
  destruct (write_file w (resolvedOutput a w) (barrel (header a) fs)).
  - destruct H as [news ->]. discriminate.
  - destruct H as [news [-> _]]. discriminate.
Qed.

Lemma run_throw_frame_witness :
  keys (self (snd (run (MkMachine registry_after_run project_locked))))
  = ["/proj/src/components/Button/index.tsx";
     "/proj/src/components/Card/index.tsx"] /\
  disk (snd (run (MkMachine registry_after_run project_locked))) = project_locked.
Proof.
  apply (run_throw_frame registry_after_run project_locked
           (EACCES, "/proj/src/components/Secret")).
  reflexivity.
Defined.

(** X5: when a stored key is missing on disk, [check] reports a change
    without scanning: it does not throw, whatever the state of the base
    directory, and [files] is as it was. *)
Theorem check_missing_key_skips_scan (a : Atomic) (w : World) (k : string) :
  In k (keys a) ->
  exists_on_disk w k = false ->
  fst (check (MkMachine a w)) = Return (true, keys a) /\
  files (self (snd (check (MkMachine a w)))) = files a.
Proof.
  intros Hin Hk.
  destruct (check_spec a w) as [l ->].
  assert (Hmiss : some_missing w (keys a) = true)
    by (apply some_missing_true; eauto).
  rewrite Hmiss. cbn. split; reflexivity.
Qed.

Lemma check_missing_key_skips_scan_witness :
  fst (check (MkMachine registry_after_run project_without_base))
  = Return (true, ["/proj/src/components/Button/index.tsx";
                   "/proj/src/components/Card/index.tsx"]) /\
  files (self (snd (check (MkMachine registry_after_run project_without_base))))
  = ["/proj/src/components/Button/index.tsx";
     "/proj/src/components/Card/index.tsx"].
Proof.
  apply (check_missing_key_skips_scan registry_after_run project_without_base
           "/proj/src/components/Button/index.tsx").
  - left. reflexivity.
  - reflexivity.
Defined.

(** ** What [run] changes on disk *)

Lemma write_file_written (w w' : World) (p content : string) :
  write_file w p content = inl w' -> w' = written w p content.
Proof.
  unfold write_file, written.
  destruct (lookup w p) as [[[|] old| | |]|]; try discriminate.
  intros H. now injection H as <-.
Qed.

Lemma run_disk (a : Atomic) (w : World) :
  disk (snd (run (MkMachine a w)))
  = match fst (run (MkMachine a w)) with
    | Return (Some ks) => written w (resolvedOutput a w) (barrel (header a) ks)
    | _ => w
    end.
Proof.
  assert (H := run_spec a w).
  destruct (access_error w (resolvedBase a w)).
  { destruct H as [news [-> _]]. reflexivity. }
  destruct (access_error w (resolvedOutput a w)).
  { destruct H as [news [-> _]]. reflexivity. }
  destruct (scan_from w (scanSubDirectories a) (regularExpression a)
              (resolvedBase a w) []) as [fs [e'|]].
  { destruct H as [news ->]. reflexivity. }
  destruct (write_file w (resolvedOutput a w) (barrel (header a) fs)) as [w'|e]
    eqn:Hw.
  - destruct H as [news ->]. cbn. now apply write_file_written.
  - destruct H as [news [-> _]]. reflexivity.
Qed.

(** A write at [p] leaves the content of every other file as it was. *)
Lemma find_update_other (wd content p q : string) (n : node) :
  q <> p ->
  forall cur,
    file_content (find_node wd q cur (update_node wd (set_content content) p cur n))
    = file_content (find_node wd q cur n).
Proof.
  intros Hqp.
  induction n as [wr c|es IH| |] using node_induction; intros cur;
    try solve [simpl; destruct (String.eqb_spec cur p), (String.eqb_spec cur q);
               simpl; try reflexivity; try congruence;
               destruct (String.eqb_spec cur q); simpl; congruence].
  rewrite update_node_Dir.
  destruct (String.eqb cur p); [reflexivity|].
  rewrite !find_node_Dir.
  destruct (String.eqb cur q); [reflexivity|].
  induction es as [|[name child] es IHes]; [reflexivity|].
  inversion IH as [|? ? Hchild Hrest]; subst. simpl in Hchild.
  cbn [update_entries map find_first fold_right fst snd].
  specialize (Hchild (Path.resolve wd [cur; name])).
  assert (Hshape := find_node_shape wd q
                      (update_node wd (set_content content) p
                         (Path.resolve wd [cur; name]) child)
                      child (Path.resolve wd [cur; name])
                      (same_shape_update wd content p child _)).
  unfold same_found in Hshape.
  destruct (find_node wd q (Path.resolve wd [cur; name])
              (update_node wd (set_content content) p
                 (Path.resolve wd [cur; name]) child)) as [m'|],
           (find_node wd q (Path.resolve wd [cur; name]) child) as [m|];
    try contradiction.
  - exact Hchild.
  - apply (IHes Hrest).
Qed.

(** X6: [run] changes nothing on disk but the content of the barrel file:
    the same paths exist before and after, and every file at another path
    has the content it had. *)
Theorem run_touches_only_output (a : Atomic) (w : World) :
  (forall q,
      exists_on_disk (disk (snd (run (MkMachine a w)))) q = exists_on_disk w q) /\
  (forall q,
      q <> resolvedOutput a w ->
      read_file (disk (snd (run (MkMachine a w)))) q = read_file w q).
Proof.
  split.
  - intros q. destruct (run_leaves a w) as (_ & Hdisk & _).
    unfold exists_on_disk. now rewrite (access_error_shape _ _ q Hdisk).
  - intros q Hq. rewrite run_disk.
    destruct (fst (run (MkMachine a w))) as [[ks|]|e]; try reflexivity.
    unfold read_file, lookup, written. cbn [cwd root].
    apply (find_update_other (cwd w) _ _ q (root w) Hq "/").
Qed.

Lemma run_touches_only_output_witness :
  read_file (disk (snd (run (MkMachine registry project))))
    "/proj/src/components/Button/index.tsx"
  = Some "export default 1".
Proof.
  destruct (run_touches_only_output registry project) as [_ H].
  rewrite (H "/proj/src/components/Button/index.tsx"); [reflexivity|].
  discriminate.
Defined.

(** ** Disks on which a path names one file *)

Lemma no_duplicates_NoDup (l : list string) :
  no_duplicates l = true -> NoDup l.
Proof.
  induction l as [|x l IH]; simpl; [constructor|].
  intros H. apply andb_true_iff in H as [Hx Hl]. apply negb_true_iff in Hx.
  constructor; [|now apply IH].
  intros Hin.
  assert (existsb (String.eqb x) l = true); [|congruence].
  apply existsb_exists. exists x. split; [exact Hin | apply String.eqb_refl].
Qed.

Lemma NoDup_app_disjoint (l1 l2 : list string) (x : string) :
  NoDup (l1 ++ l2)%list -> In x l1 -> In x l2 -> False.
Proof.
  induction l1 as [|y l1 IH]; simpl; [tauto|].
  intros H [->|Hin] H2; inversion H; subst.
  - match goal with Hn : ~ In x _ |- _ => apply Hn end.
    apply in_or_app. now right.
  - now apply IH.
Qed.

Lemma all_paths_Dir (wd cur : string) (es : list (string * node)) :
  all_paths wd cur (Dir es) = cur :: entries_paths wd cur es.
Proof.
  cbn [all_paths]. f_equal.
  induction es as [|[name child] es IH]; [reflexivity|].
  cbn [entries_paths flat_map fst snd]. rewrite IH. reflexivity.
Qed.

#[local] Arguments all_paths : simpl never.

Lemma all_paths_head (wd cur : string) (n : node) : In cur (all_paths wd cur n).
Proof. destruct n; cbv [all_paths]; now left. Qed.

Lemma node_at_in_paths (wd : string) (n : node) :
  forall cur p m, node_at wd cur n p m -> In p (all_paths wd cur n).
Proof.
  induction n as [wr c|es IH| |] using node_induction; intros cur p m H;
    inversion H; subst; try apply all_paths_head.
  rewrite all_paths_Dir. right. unfold entries_paths.
  apply in_flat_map. exists (name, child). split; [assumption|].
  rewrite Forall_forall in IH. apply (IH (name, child)) with (m := m); assumption.
Qed.

Lemma find_node_sound (wd p : string) (n : node) :
  forall cur m, find_node wd p cur n = Some m -> node_at wd cur n p m.
Proof.
  induction n as [wr c|es IH| |] using node_induction; intros cur m;
    try solve [simpl; destruct (String.eqb_spec cur p);
               [intros H; injection H as <-; subst; constructor | discriminate]].
  rewrite find_node_Dir.
  destruct (String.eqb_spec cur p) as [->|Hne].
  - intros H. injection H as <-. constructor.
  - induction es as [|[name child] es IHes]; [discriminate|].
    inversion IH as [|? ? Hchild Hrest]; subst. simpl in Hchild.
    cbn [find_first fold_right fst snd].
    destruct (find_node wd p (Path.resolve wd [cur; name]) child) as [m'|] eqn:E.
    + intros H. injection H as <-.
      apply node_below with (name := name) (child := child); [now left|].
      now apply Hchild.
    + intros H. specialize (IHes Hrest H).
      inversion IHes; subst; [congruence|].
      apply node_below with (name := name0) (child := child0); [now right | assumption].
Qed.

Lemma find_node_complete (wd p : string) (n : node) :
  forall cur m,
    NoDup (all_paths wd cur n) ->
    node_at wd cur n p m ->
    find_node wd p cur n = Some m.
Proof.
  induction n as [wr c|es IH| |] using node_induction; intros cur m Hnd Hat;
    try solve [inversion Hat; subst; apply find_node_here, String.eqb_refl].
  inversion Hat as [|? ? name child ? ? Hin Hbelow]; subst;
    [apply find_node_here, String.eqb_refl|].
  rewrite all_paths_Dir in Hnd. inversion Hnd as [|? ? Hcur Hes]; subst.
  rewrite find_node_Dir.
  destruct (String.eqb_spec cur p) as [->|Hne].
  { exfalso. apply Hcur. unfold entries_paths. apply in_flat_map.
    exists (name, child). split; [assumption|].
    now apply node_at_in_paths with (m := m). }
  clear Hat Hcur Hnd.
  induction es as [|[name' child'] es IHes]; [contradiction|].
  inversion IH as [|? ? Hchild Hrest]; subst. simpl in Hchild.
  cbn [entries_paths flat_map fst snd] in Hes.
  cbn [find_first fold_right fst snd].
  destruct Hin as [Heq|Hin].
  - injection Heq as -> ->.
    rewrite (Hchild _ m (NoDup_app_remove_r _ _ Hes) Hbelow). reflexivity.
  - destruct (find_node wd p (Path.resolve wd [cur; name']) child') as [m'|] eqn:E.
    + exfalso. apply find_node_sound, node_at_in_paths in E.
      apply (NoDup_app_disjoint _ _ p Hes E).
      apply in_flat_map. exists (name, child). split; [assumption|].
      now apply node_at_in_paths with (m := m).
    + apply (IHes Hrest Hin (NoDup_app_remove_l _ _ Hes)).
Qed.

Lemma node_at_trans (wd : string) (cur : string) (n : node) (p : string) (m : node) :
  node_at wd cur n p m ->
  forall q k, node_at wd p m q k -> node_at wd cur n q k.
Proof.
  induction 1 as [|cur es name child p m Hin Hbelow IHbelow]; intros q k Hk;
    [exact Hk|].
  apply node_below with (name := name) (child := child); [assumption|].
  now apply IHbelow.
Qed.

Lemma file_below_node_at (wd : string) (r : bool) (directory : string) (n : node)
    (p : string) :
  file_below wd r directory n p ->
  exists writable content, node_at wd directory n p (File writable content).
Proof.
  induction 1 as [dir es name wr c Hin|dir es name child p Hr Hin Hbelow IH].
  - exists wr, c. apply node_below with (name := name) (child := File wr c);
      [assumption | constructor].
  - destruct IH as (wr & c & Hat). exists wr, c.
    now apply node_below with (name := name) (child := child).
Qed.

(** On a disk where a path names one file, every path that a scan yields
    exists. *)
Lemma scanned_paths_exist (w : World) (r : bool) (pat : string -> bool)
    (directory : string) (fs : list string) :
  unique_paths w = true ->
  scan_from w r pat directory [] = (fs, None) ->
  forall k, In k fs -> exists_on_disk w k = true.
Proof.
  intros Huniq Hscan k Hin.
  unfold scan_from in Hscan.
  destruct (lookup w directory) as [n|] eqn:Hbase; [|discriminate].
  apply (scan_at_collects (cwd w) r pat n directory [] fs Hscan k) in Hin.
  destruct Hin as [[]|[Hbelow _]].
  apply file_below_node_at in Hbelow as (wr & c & Hat).
  apply find_node_sound in Hbase.
  assert (Hroot := node_at_trans _ _ _ _ _ Hbase _ _ Hat).
  apply find_node_complete in Hroot;
    [|apply no_duplicates_NoDup, Huniq].
  unfold exists_on_disk, access_error, lookup. now rewrite Hroot.
Qed.

Lemma check_sees_scan (a' a : Atomic) (w' w : World) (fs : list string) :
  same_settings a' a -> keys a' = fs -> same_disk w' w ->
  unique_paths w = true ->
  scan_from w (scanSubDirectories a) (regularExpression a)
    (resolvedBase a w) [] = (fs, None) ->
  fst (check (MkMachine a' w')) = Return (false, fs).
Proof.
  intros (Hc & Hb & Ho & Hh & Hre & Hsub) Hkeys Hdisk Huniq Hscan.
  destruct (check_spec a' w') as [l ->].
  assert (Hrb : resolvedBase a' w' = resolvedBase a w).
  { unfold resolvedBase. destruct Hdisk as [-> _]. now rewrite Hc, Hb. }
  rewrite Hrb, Hsub, Hre, (scan_from_shape w' w _ _ _ _ Hdisk), Hscan, Hkeys.
  assert (Hmiss : some_missing w' fs = false).
  { apply some_missing_false. intros k Hin. unfold exists_on_disk.
    rewrite (access_error_shape w' w k Hdisk).
    apply (scanned_paths_exist w _ _ _ fs Huniq Hscan k Hin). }
  rewrite Hmiss. cbn.
  now rewrite (proj2 (equalsIgnoreOrder_spec fs fs) (Permutation_refl fs)).
Qed.





(** ** Options and construction *)

Lemma or_else_None {A : Type} (x : option A) : or_else x None = x.
Proof. now destruct x. Qed.

Lemma or_else_assoc {A : Type} (x y z : option A) :
  or_else x (or_else y z) = or_else (or_else x y) z.
Proof. now destruct x. Qed.

(** X9: two calls of [setOptions] amount to one call with the second
    options object assigned over the first: a later option wins, an option
    that the later call does not mention keeps the value of the earlier
    call, and keys and files are not touched. *)
Theorem setOptions_twice (o1 o2 : AtomicOptions) (i : Instance) :
  setOptions o2 (setOptions o1 i) = setOptions (Object_assign o1 o2) i /\
  i_keys (setOptions o1 i) = i_keys i /\
  i_files (setOptions o1 i) = i_files i.
Proof.
  split; [|split; reflexivity].
  unfold setOptions, Object_assign. cbn.
  rewrite !or_else_None, !or_else_assoc. reflexivity.
Qed.


(** X11: the constructor of [Atomic] leaves in [context] the option it was
    given, so that [__dirname] never remains and an instance built without
    a context is not ready; it installs the console logger whatever it was
    given, and the next [setOptions] replaces that logger by the one of the
    options, the later call winning, or by nothing if none was ever
    given. *)
Theorem Atomic_constructor_context_and_logger (dirname : string)
    (options later : AtomicOptions) (l : list log_entry) :
  i_context (Atomic_constructor dirname options) = o_context options /\
  (o_context options = None -> ready (Atomic_constructor dirname options) l = None) /\
  i_logger (Atomic_constructor dirname options) = Some console_logger /\
  i_logger (setOptions later (Atomic_constructor dirname options))
  = or_else (o_logger later) (o_logger options).
Proof.
  unfold Atomic_constructor, setOptions, Object_assign. cbn.
  rewrite !or_else_None. repeat split.
  intros Hc. unfold ready. cbn. rewrite Hc. reflexivity.
Qed.

Lemma Atomic_constructor_context_and_logger_witness :
  ready (Atomic_constructor "/node_modules/atomic" no_options) [] = None.
Proof.
  destruct (Atomic_constructor_context_and_logger "/node_modules/atomic"
              no_options no_options []) as (_ & H & _).
  apply H. reflexivity.
Defined.

(** ** The hooks *)

#[local] Arguments run : simpl never.
#[local] Arguments check : simpl never.

Lemma build_hook_spec (m : Machine) :
  build_hook m
  = match check m with
    | (Throw e, m1) => (Throw e, m1)
    | (Return (false, _), m1) => (Return tt, m1)
    | (Return (true, _), m1) =>
        match run m1 with
        | (Throw e, m2) => (Throw e, m2)
        | (Return None, m2) => (Return tt, m2)
        | (Return (Some _), m2) =>
            (Return tt,
             MkMachine
               (with_logged (logged (self m2) ++ [(info, ["Done"])])%list (self m2))
               (disk m2))
        end
    end.
Proof.
  unfold build_hook, check_with, run_with, bind.
  destruct (check m) as [[[[|] ks]|e] m1]; cbn; try reflexivity.
  destruct (run m1) as [[[ks'|]|e] m2]; reflexivity.
Qed.

Lemma environment_hook_spec (c : string) (a : Atomic) (w : World) :
  environment_hook c (MkMachine a w)
  = match run (MkMachine
                 (with_logged (logged a ++ [(info, ["Atomic start"])])%list
                    (with_context c a)) w) with
    | (Throw e, m2) => (Throw e, m2)
    | (Return None, m2) => (Return tt, m2)
    | (Return (Some _), m2) =>
        (Return tt,
         MkMachine
           (with_logged (logged (self m2) ++ [(info, ["Done"])])%list (self m2))
           (disk m2))
    end.
Proof.
  unfold environment_hook, run_with, bind, modify_self, logger. cbn.
  destruct (run _) as [[[ks'|]|e] m2]; reflexivity.
Qed.

(** What [check] leaves behind. *)
Lemma check_leaves (a : Atomic) (w : World) :
  same_settings (self (snd (check (MkMachine a w)))) a /\
  keys (self (snd (check (MkMachine a w)))) = keys a /\
  disk (snd (check (MkMachine a w))) = w.
Proof.
  destruct (check_spec a w) as [l ->].
  destruct (some_missing w (keys a)); [cbn; repeat split|].
  destruct (scan_from w (scanSubDirectories a) (regularExpression a)
              (resolvedBase a w) []) as [fs [e|]]; cbn; repeat split.
Qed.

Lemma same_disk_refl (w : World) : same_disk w w.
Proof. split; [reflexivity | apply same_shape_refl]. Qed.

Lemma resolvedOutput_settings (a' a : Atomic) (w' w : World) :
  same_settings a' a -> cwd w' = cwd w ->
  resolvedOutput a' w' = resolvedOutput a w.
Proof.
  unfold resolvedOutput. intros (-> & -> & -> & _) ->. reflexivity.
Qed.

(** The disk that [run] leaves depends on the settings and on the disk. *)
Lemma run_disk_settings (a' a : Atomic) (w : World) :
  same_settings a' a ->
  disk (snd (run (MkMachine a' w))) = disk (snd (run (MkMachine a w))).
Proof.
  intros Hset. rewrite !run_disk.
  rewrite (run_outcome_shape a' a w w Hset (same_disk_refl w)).
  rewrite (resolvedOutput_settings a' a w w Hset eq_refl).
  destruct Hset as (_ & _ & _ & -> & _). reflexivity.
Qed.

Lemma update_node_twice (wd content p : string) (n : node) :
  forall cur,
    update_node wd (set_content content) p cur
      (update_node wd (set_content content) p cur n)
    = update_node wd (set_content content) p cur n.
Proof.
  induction n as [wr c|es IH| |] using node_induction; intros cur;
    destruct (String.eqb cur p) eqn:E;
    try solve [rewrite !update_node_here by exact E; reflexivity];
    try solve [simpl; rewrite E; simpl; now rewrite E].
  rewrite (update_node_Dir wd _ p cur es), E, update_node_Dir, E. f_equal.
  induction es as [|[name child] es IHes]; [reflexivity|].
  inversion IH as [|? ? Hchild Hrest]; subst. simpl in Hchild.
  cbn [update_entries map fst snd]. rewrite Hchild. f_equal.
  apply (IHes Hrest).
Qed.

Lemma written_twice (w : World) (p content : string) :
  written (written w p content) p content = written w p content.
Proof.
  unfold written. cbn [cwd root]. now rewrite update_node_twice.
Qed.

(** A second [run], with the same settings, leaves the disk of the first. *)
Lemma run_disk_again (a' a : Atomic) (w : World) :
  same_settings a' a ->
  disk (snd (run (MkMachine a' (disk (snd (run (MkMachine a w)))))))
  = disk (snd (run (MkMachine a w))).
Proof.
  intros Hset.
  destruct (run_leaves a w) as (_ & Hdisk & _).
  rewrite (run_disk a').
  rewrite (run_outcome_shape a' a _ w Hset Hdisk).
  rewrite (resolvedOutput_settings a' a _ w Hset (proj1 Hdisk)).
  rewrite (run_disk a w).
  destruct (fst (run (MkMachine a w))) as [[ks|]|e]; try reflexivity.
  destruct Hset as (_ & _ & _ & -> & _). apply written_twice.
Qed.

Lemma same_settings_trans (a b c : Atomic) :
  same_settings a b -> same_settings b c -> same_settings a c.
Proof.
  intros (H1 & H2 & H3 & H4 & H5 & H6) (K1 & K2 & K3 & K4 & K5 & K6).
  repeat split; congruence.
Qed.

(** The disk and the settings that the build hook leaves. *)
Lemma build_hook_leaves (a : Atomic) (w : World) :
  same_settings (self (snd (build_hook (MkMachine a w)))) a /\
  disk (snd (build_hook (MkMachine a w)))
  = match fst (check (MkMachine a w)) with
    | Return (true, _) => disk (snd (run (MkMachine a w)))
    | _ => w
    end /\
  match fst (check (MkMachine a w)) with
  | Return (true, _) => True
  | _ => keys (self (snd (build_hook (MkMachine a w)))) = keys a
  end.
Proof.
  rewrite build_hook_spec.
  destruct (check_leaves a w) as (Hset & Hkeys & Hdisk).
  destruct (check (MkMachine a w)) as [[[[|] ks]|e] [a1 w1]];
    cbn [fst snd self disk] in *; subst w1.
  - destruct (run_leaves a1 w) as (Hset2 & _).
    assert (Hd := run_disk_settings a1 a w Hset).
    destruct (run (MkMachine a1 w)) as [[[ks'|]|e] [a2 w2]];
      cbn [fst snd self disk] in *; subst w2;
      (split; [|split; [reflexivity | exact I]]).
    + apply same_settings_trans with (b := a1); [|exact Hset].
      destruct Hset2 as (? & ? & ? & ? & ? & ?). repeat split; assumption.
    + now apply same_settings_trans with (b := a1).
    + now apply same_settings_trans with (b := a1).
  - split; [exact Hset | split; [reflexivity | exact Hkeys]].
  - split; [exact Hset | split; [reflexivity | exact Hkeys]].
Qed.

Lemma check_determined (a' a : Atomic) (w : World) :
  same_settings a' a -> keys a' = keys a ->
  fst (check (MkMachine a' w)) = fst (check (MkMachine a w)).
Proof.
  intros (Hc & Hb & Ho & Hh & Hre & Hsub) Hkeys.
  destruct (check_spec a' w) as [l' ->], (check_spec a w) as [l ->].
  assert (Hrb : resolvedBase a' w = resolvedBase a w).
  { unfold resolvedBase. now rewrite Hc, Hb. }
  rewrite Hrb, Hsub, Hre, Hkeys.
  destruct (some_missing w (keys a)); [reflexivity|].
  destruct (scan_from w (scanSubDirectories a) (regularExpression a)
              (resolvedBase a w) []) as [fs [e|]]; reflexivity.
Qed.

(** X12: when [check] reports no change, the build hook calls the callback
    of the compiler without calling [run]: the disk and the stored keys
    are as they were. *)
Theorem build_hook_without_change (a : Atomic) (w : World) (ks : list string) :
  fst (check (MkMachine a w)) = Return (false, ks) ->
  fst (build_hook (MkMachine a w)) = Return tt /\
  disk (snd (build_hook (MkMachine a w))) = w /\
  keys (self (snd (build_hook (MkMachine a w)))) = keys a.
Proof.
  intros Hcheck.
  destruct (build_hook_leaves a w) as (_ & Hdisk & Hkeys).
  rewrite Hcheck in Hdisk, Hkeys. repeat split; try assumption.
  rewrite build_hook_spec.
  destruct (check (MkMachine a w)) as [[[[|] ks']|e] m1]; cbn in Hcheck;
    try discriminate. reflexivity.
Qed.

Lemma build_hook_without_change_witness :
  fst (build_hook (MkMachine registry_after_run project)) = Return tt /\
  disk (snd (build_hook (MkMachine registry_after_run project))) = project.
Proof.
  destruct (build_hook_without_change registry_after_run project
              ["/proj/src/components/Button/index.tsx";
               "/proj/src/components/Card/index.tsx"] eq_refl) as (H1 & H2 & _).
  split; assumption.
Defined.

(** X13: when [check] reports a change and [run] would succeed, the build
    hook calls the callback of the compiler after it has regenerated the
    barrel file: the stored keys are those of the new scan and the barrel
    file holds the header and the export lines of these keys. *)
Theorem build_hook_regenerates (a : Atomic) (w : World) (old ks : list string) :
  fst (check (MkMachine a w)) = Return (true, old) ->
  fst (run (MkMachine a w)) = Return (Some ks) ->
  fst (build_hook (MkMachine a w)) = Return tt /\
  keys (self (snd (build_hook (MkMachine a w)))) = ks /\
  read_file (disk (snd (build_hook (MkMachine a w)))) (resolvedOutput a w)
  = Some (barrel (header a) ks).
Proof.
  intros Hcheck Hrun.
  rewrite build_hook_spec.
  destruct (check_leaves a w) as (Hset & _ & Hdisk).
  destruct (check (MkMachine a w)) as [[[[|] ks']|e] [a1 w1]];
    cbn [fst snd self disk] in *; try discriminate. subst w1.
  assert (Hout := run_outcome_shape a1 a w w Hset (same_disk_refl w)).
  rewrite Hrun in Hout.
  destruct (run_leaves a1 w) as (_ & _ & H). rewrite Hout in H.
  destruct H as (Hread & Hkeys & _).
  rewrite (resolvedOutput_settings a1 a w w Hset eq_refl) in Hread.
  destruct Hset as (_ & _ & _ & Hh & _). rewrite Hh in Hread.
  destruct (run (MkMachine a1 w)) as [[[ks''|]|e] [a2 w2]];
    cbn [fst snd self disk] in *; try discriminate.
  injection Hout as ->. repeat split; assumption.
Qed.

Lemma build_hook_regenerates_witness :
  keys (self (snd (build_hook (MkMachine registry_after_run project_with_Modal))))
  = ["/proj/src/components/Button/index.tsx";
     "/proj/src/components/Card/index.tsx";
     "/proj/src/components/Modal/index.tsx"].
Proof.
  destruct (build_hook_regenerates registry_after_run project_with_Modal
              ["/proj/src/components/Button/index.tsx";
               "/proj/src/components/Card/index.tsx"]
              ["/proj/src/components/Button/index.tsx";
               "/proj/src/components/Card/index.tsx";
               "/proj/src/components/Modal/index.tsx"]
              eq_refl eq_refl) as (_ & H & _).
  exact H.
Defined.



Lemma run_throws_iff (a : Atomic) (w : World) (e : error) :
  fst (run (MkMachine a w)) = Throw e
  <-> exists_on_disk w (resolvedBase a w) = true /\
      exists_on_disk w (resolvedOutput a w) = true /\
      rescan a w = Throw e.
Proof.
  rewrite rescan_scan. assert (H := run_spec a w). unfold exists_on_disk.
  destruct (access_error w (resolvedBase a w)).
  { destruct H as [news [-> _]]. cbn. split; [discriminate|].
    intros [? _]; discriminate. }
  destruct (access_error w (resolvedOutput a w)).
  { destruct H as [news [-> _]]. cbn. split; [discriminate|].
    intros (_ & ? & _); discriminate. }
  destruct (scan_from w (scanSubDirectories a) (regularExpression a)
              (resolvedBase a w) []) as [fs [e'|]].
  { destruct H as [news ->]. cbn. split.
    - intros H. injection H as ->. repeat split.
    - intros (_ & _ & H). injection H as ->. reflexivity. }
  destruct (write_file w (resolvedOutput a w) (barrel (header a) fs)).
  - destruct H as [news ->]. cbn. split; [discriminate|].
    intros (_ & _ & ?); discriminate.
  - destruct H as [news [-> _]]. cbn. split; [discriminate|].
    intros (_ & _ & ?); discriminate.
Qed.

(** X16: the build hook throws, and so never calls the callback of the
    compiler, exactly when the scan of the base directory throws and
    either all stored keys exist (the scan of [check] throws) or the base
    directory and the barrel file are accessible (the scan of [run]
    throws). *)
Theorem build_hook_throws_iff (a : Atomic) (w : World) (e : error) :
  fst (build_hook (MkMachine a w)) = Throw e
  <-> rescan a w = Throw e /\
      ((forall k, In k (keys a) -> exists_on_disk w k = true) \/
       (exists_on_disk w (resolvedBase a w) = true /\
        exists_on_disk w (resolvedOutput a w) = true)).
Proof.
  rewrite build_hook_spec.
  destruct (check_leaves a w) as (Hset & _ & Hdisk).
  assert (Hrun : forall a1, same_settings a1 a ->
            fst (run (MkMachine a1 w)) = fst (run (MkMachine a w)))
    by (intros a1 H1; apply run_outcome_shape; [exact H1 | apply same_disk_refl]).
  assert (Hthrows := fun e0 => run_throws_iff a w e0).
  assert (Hthrow := Hthrows e).
  destruct (check_spec a w) as [l Hcheck]. rewrite Hcheck in Hset, Hdisk |- *.
  clear Hcheck. rewrite rescan_scan in *.
  destruct (some_missing w (keys a)) eqn:Hmiss.
  - cbn [fst snd self disk] in *. specialize (Hrun _ Hset).
    assert (Hnot : ~ forall k, In k (keys a) -> exists_on_disk w k = true).
    { intros Hall. apply (proj2 (some_missing_false w (keys a))) in Hall.
      congruence. }
    destruct (run (MkMachine (with_logged l a) w)) as [[[ks|]|e'] m2];
      cbn [fst] in *; rewrite <- Hrun in Hthrow.
    + split; [discriminate|]. intros [Hs [Hall|Hacc]]; [contradiction|].
      exfalso. assert (Habs := proj2 Hthrow (conj (proj1 Hacc) (conj (proj2 Hacc) Hs))).
      discriminate.
    + split; [discriminate|]. intros [Hs [Hall|Hacc]]; [contradiction|].
      exfalso. assert (Habs := proj2 Hthrow (conj (proj1 Hacc) (conj (proj2 Hacc) Hs))).
      discriminate.
    + split.
      * intros H. injection H as ->.
        destruct (proj1 Hthrow eq_refl) as (Hb & Ho & Hs).
        split; [exact Hs | right; split; assumption].
      * intros [Hs [Hall|[Hb Ho]]]; [contradiction|].
        assert (Habs := proj2 Hthrow (conj Hb (conj Ho Hs))).
        injection Habs as ->. reflexivity.
  - assert (Hall := proj1 (some_missing_false w (keys a)) Hmiss).
    destruct (scan_from w (scanSubDirectories a) (regularExpression a)
                (resolvedBase a w) []) as [fs [e'|]].
    + cbn. split.
      * intros H. injection H as ->. split; [reflexivity | now left].
      * intros [H _]. now injection H as ->.
    + cbn [fst snd self disk] in *. specialize (Hrun _ Hset).
      destruct (negb (equalsIgnoreOrder fs (keys a))).
      * destruct (run _) as [[[ks|]|e'] m2]; cbn [fst] in *.
        -- split; [discriminate|]. intros [? _]. discriminate.
        -- split; [discriminate|]. intros [? _]. discriminate.
        -- exfalso. specialize (Hthrows e'). rewrite <- Hrun in Hthrows.
           destruct (proj1 Hthrows eq_refl) as (_ & _ & ?). discriminate.
      * cbn. split; [discriminate|]. intros [? _]. discriminate.
Qed.

(** ** The order of the keys *)

Lemma files_in_order_cons (wd : string) (r : bool) (directory name : string)
    (child : node) (es : list (string * node)) :
  files_in_order wd r directory (Dir ((name, child) :: es))
  = (match child with
     | File _ _ => [Path.resolve wd [directory; name]]
     | Dir _ | Unreadable =>
         if r then files_in_order wd r (Path.resolve wd [directory; name]) child
         else []
     | Dangling => []
     end ++ files_in_order wd r directory (Dir es))%list.
Proof. reflexivity. Qed.

#[local] Arguments files_in_order : simpl never.

Lemma scan_at_in_order (wd : string) (r : bool) (pat : string -> bool) (n : node) :
  forall directory fs,
    readable r n = true ->
    scan_at wd r pat directory n fs
    = (fold_left files_set (filter pat (files_in_order wd r directory n)) fs, None).
Proof.
  induction n as [wr c|es IH| |] using node_induction;
    intros directory fs Hread; try discriminate.
  revert fs.
  induction es as [|[name child] es IHes]; intros fs; [reflexivity|].
  inversion IH as [|? ? Hchild Hrest]; subst. simpl in Hchild.
  rewrite readable_cons in Hread. apply andb_true_iff in Hread as [Hc Hes].
  specialize (IHes Hrest Hes).
  rewrite scan_at_cons, files_in_order_cons, filter_app, fold_left_app. cbv zeta.
  destruct child as [wr c|ces| |]; try discriminate.
  - rewrite IHes. cbn [filter].
    destruct (pat (Path.resolve wd [directory; name])); reflexivity.
  - destruct r.
    + rewrite (Hchild _ fs Hc). apply IHes.
    + apply IHes.
  - destruct r; [discriminate | apply IHes].
Qed.



(** ** Paths that [cleanKeys] does not recognise *)

Lemma occurs_later (l : string) (c : ascii) (s : string) :
  occurs l s = true -> occurs l (String c s) = true.
Proof. intros H. cbn [occurs]. rewrite H. apply orb_true_r. Qed.

Lemma occurs_start (l s : string) : starts_with l s = true -> occurs l s = true.
Proof. intros H. destruct s; cbn [occurs]; now rewrite H. Qed.

Lemma lit_starts_with (eos : bool) (l s : string) (r : Regex.hit) :
  Regex.match_items eos (Regex.lit l) s = Some r -> starts_with l s = true.
Proof.
  revert s r. induction l as [|c l IH]; intros s r; [reflexivity|].
  destruct s as [|d s]; [discriminate|].
  cbn [Regex.lit Regex.match_items Regex.iquant Regex.one Regex.icls
       Regex.cls_match starts_with].
  destruct (Ascii.eqb d c); [|discriminate].
  destruct (Regex.match_items eos (Regex.lit l) s) as [r'|] eqn:E; [|discriminate].
  intros _. now apply (IH s r').
Qed.

Lemma match_plus_occurs (l : string) (it : Regex.item)
    (k : string -> option Regex.hit) :
  (forall s r, k s = Some r -> occurs l s = true) ->
  forall s r, Regex.match_plus it k s = Some r -> occurs l s = true.
Proof.
  intros Hk. induction s as [|c s IH]; intros r; [discriminate|].
  cbn [Regex.match_plus].
  destruct (Regex.cls_match (Regex.icls it) c); [|discriminate].
  destruct (Regex.match_plus it k s) as [r'|] eqn:E.
  - intros _. apply occurs_later. now apply (IH r').
  - destruct (k s) as [r'|] eqn:Ek; [|discriminate].
    intros _. apply occurs_later. now apply (Hk s r').
Qed.

Lemma match_items_occurs (eos : bool) (l : string) (its : list Regex.item) :
  forall s r,
    Regex.match_items eos (its ++ Regex.lit l)%list s = Some r ->
    occurs l s = true.
Proof.
  induction its as [|it its IH]; intros s r.
  - intros H. apply occurs_start. now apply lit_starts_with in H.
  - cbn [app Regex.match_items]. destruct (Regex.iquant it).
    + destruct s as [|c s]; [discriminate|].
      destruct (Regex.cls_match (Regex.icls it) c); [|discriminate].
      destruct (Regex.match_items eos (its ++ Regex.lit l)%list s) as [r'|] eqn:E;
        [|discriminate].
      intros _. apply occurs_later. now apply (IH s r').
    + destruct s as [|c s]; [apply IH|].
      destruct (Regex.cls_match (Regex.icls it) c); [|apply IH].
      destruct (Regex.match_items eos (its ++ Regex.lit l)%list s) as [r'|] eqn:E.
      * intros _. apply occurs_later. now apply (IH s r').
      * apply IH.
    + apply match_plus_occurs. exact IH.
Qed.

(** X18: a path in which the text [/index.tsx] does not occur is left as
    it is by [cleanKeys]: its component name and its import specifier are
    the whole path. *)
Theorem cleanKeys_unrecognised_path (before after : list string) (path : string) :
  occurs "/index.tsx" path = false ->
  cleanKeys (before ++ path :: after)%list
  = (cleanKeys before
       ++ {| key := path; componentName := path; from := path |}
       :: cleanKeys after)%list.
Proof.
  intros Hno. unfold cleanKeys. rewrite map_app. cbn [map]. f_equal. f_equal.
  unfold cleanKey, Regex.replace, Regex.exec.
  change (Regex.from_start componentName_re) with true.
  change (Regex.from_start from_re) with true. cbv iota.
  destruct (Regex.match_items (Regex.to_end componentName_re)
              (Regex.items componentName_re) path) as [[g rest]|] eqn:E1.
  { apply match_items_occurs in E1. congruence. }
  destruct (Regex.match_items (Regex.to_end from_re)
              (Regex.items from_re) path) as [[g rest]|] eqn:E2.
  { apply match_items_occurs in E2. congruence. }
  reflexivity.
Qed.

Lemma cleanKeys_unrecognised_path_witness :
  cleanKeys ["/proj/src/components/Button/index.jsx"]
  = [ {| key := "/proj/src/components/Button/index.jsx";
         componentName := "/proj/src/components/Button/index.jsx";
         from := "/proj/src/components/Button/index.jsx" |} ].
Proof.
  apply (cleanKeys_unrecognised_path [] [] "/proj/src/components/Button/index.jsx").
  reflexivity.
Defined.

(** X19: the environment hook resolves the base directory against the
    context of the compiler, whatever context the instance had: when [run]
    succeeds for that context, the hook returns with the context
    installed, the keys of the scan stored and the barrel file
    regenerated. *)
Theorem environment_hook_regenerates (compiler_context : string) (a : Atomic)
    (w : World) (ks : list string) :
  let a0 := with_context compiler_context a in
  fst (run (MkMachine a0 w)) = Return (Some ks) ->
  fst (environment_hook compiler_context (MkMachine a w)) = Return tt /\
  context (self (snd (environment_hook compiler_context (MkMachine a w))))
  = compiler_context /\
  keys (self (snd (environment_hook compiler_context (MkMachine a w)))) = ks /\
  read_file (disk (snd (environment_hook compiler_context (MkMachine a w))))
    (resolvedOutput a0 w)
  = Some (barrel (header a) ks).
Proof.
  intros a0 Hrun. rewrite environment_hook_spec.
  set (a1 := with_logged (logged a ++ [(info, ["Atomic start"])])%list
               (with_context compiler_context a)).
  assert (Hset : same_settings a1 a0) by (repeat split).
  assert (Hout := run_outcome_shape a1 a0 w w Hset (same_disk_refl w)).
  rewrite Hrun in Hout.
  destruct (run_leaves a1 w) as ((Hc & _) & _ & H). rewrite Hout in H.
  destruct H as (Hread & Hkeys & _).
  rewrite (resolvedOutput_settings a1 a0 w w Hset eq_refl) in Hread.
  destruct (run (MkMachine a1 w)) as [[[ks'|]|e] [a2 w2]];
    cbn [fst snd self disk] in *; try discriminate.
  repeat split; assumption.
Qed.

Lemma environment_hook_regenerates_witness :
  context (self (snd (environment_hook "/proj"
                        (MkMachine (with_context "/elsewhere" registry) project))))
  = "/proj" /\
  keys (self (snd (environment_hook "/proj"
                     (MkMachine (with_context "/elsewhere" registry) project))))
  = ["/proj/src/components/Button/index.tsx";
     "/proj/src/components/Card/index.tsx"].
Proof.
  destruct (environment_hook_regenerates "/proj"
              (with_context "/elsewhere" registry) project
              ["/proj/src/components/Button/index.tsx";
               "/proj/src/components/Card/index.tsx"] eq_refl)
    as (_ & Hc & Hk & _).
  split; assumption.
Defined.
